(** * dpi_check: parser, loader, threshold abort and outcome classifier

    A shallow embedding of [dpi.cpp] (the C++23 command line checker for the
    "TCP 16-20" blocking method) and the properties of its core: the
    bracket-balanced extractor, the tolerant object parser, the test suite
    loader, the progress callback and the classification switch of [worker].

    Conventions of the embedding.
    - [std::string] is a list of bytes ([list ascii]); positions and sizes are
      [nat], [std::string::npos] is [None].
    - [size_t] counters that the code increments or decrements are [Z] with
      the wrap-around modulo 2^64 written out; [int] is [Z] with the usual
      two's-complement wrap-around made explicit.
    - A C++ exception is an explicit completion value; the caller's vector,
      which the code mutates through a reference, is threaded as state and is
      therefore still observable when an exception leaves the function.
    - [fetchHtml] (a wrapper of libcurl) and [curl_easy_strerror] are section
      variables. *)

From Stdlib Require Import Ascii String DecimalString DecimalPos DecimalZ.
From Stdlib Require Import ZArith QArith Lia Bool Arith List.
Import ListNotations.

Local Open Scope list_scope.

Local Open Scope Z_scope.

(** ** std::string primitives *)

Definition cstring := list ascii.

(** A literal of the source. *)
Definition str (s : string) : cstring := list_ascii_of_string s.

(** The double quote character, [0x22]. *)
Definition dquote : ascii := ascii_of_nat 34.

(** [prefix_of pat s]: [s] starts with [pat]. *)
Fixpoint prefix_of (pat s : cstring) : bool :=
  match pat, s with
  | [], _ => true
  | _ :: _, [] => false
  | a :: pat', b :: s' => Ascii.eqb a b && prefix_of pat' s'
  end.

Fixpoint find_str_from (pat rest : cstring) (i : nat) : option nat :=
  if prefix_of pat rest then Some i
  else match rest with
       | [] => None
       | _ :: rest' => find_str_from pat rest' (S i)
       end.

(** [s.find(pat, pos)] *)
Definition find_str (s pat : cstring) (pos : nat) : option nat :=
  if (pos <=? length s)%nat then find_str_from pat (skipn pos s) pos else None.

Fixpoint find_chr_from (c : ascii) (rest : cstring) (i : nat) : option nat :=
  match rest with
  | [] => None
  | b :: rest' => if Ascii.eqb b c then Some i else find_chr_from c rest' (S i)
  end.

(** [s.find(c, pos)] *)
Definition find_chr (s : cstring) (c : ascii) (pos : nat) : option nat :=
  find_chr_from c (skipn pos s) pos.

(** [s.substr(pos, n)].  Every call site of the source has [pos <= s.size()],
    where [substr] does not throw. *)
Definition substr (s : cstring) (pos n : nat) : cstring :=
  firstn n (skipn pos s).

Definition empty (s : cstring) : bool :=
  match s with [] => true | _ => false end.

(** ** Machine integers *)

Definition INT_MAX : Z := 2147483647.
Definition INT_MIN : Z := - 2147483648.

(** [size_t] arithmetic is modulo 2^64. *)
Definition wrap_size (z : Z) : Z := z mod 2 ^ 64.

(** [int] arithmetic, two's complement. *)
Definition wrap_int (z : Z) : Z := (z + 2 ^ 31) mod 2 ^ 32 - 2 ^ 31.

Definition OK_THRESHOLD_BYTES : Z := 64 * 1024.

(** ** Records *)

Record Test := mkTest {
  id : cstring;
  provider : cstring;
  url : cstring;
  times : Z
}.

Record Result := mkResult {
  r_id : cstring;
  r_provider : cstring;
  http_code : Z;
  received : Z;
  status : cstring;
  detail : cstring;
  elapsed_ms : Q;
  aborted_by_threshold : bool
}.

(** ** extractTestSuiteArray *)

Definition marker : cstring := str "const TEST_SUITE".

(** The [for] loop of [extractTestSuiteArray]: [rest] is [html] from index
    [i] on, [depth] the [size_t] counter.  The result is the index of the
    closing bracket at which the loop returns. *)
Fixpoint scan_brackets (rest : cstring) (i : nat) (depth : Z) : option nat :=
  match rest with
  | [] => None
  | c :: rest' =>
      if Ascii.eqb c "["%char then scan_brackets rest' (S i) (wrap_size (depth + 1))
      else if Ascii.eqb c "]"%char then
        let depth' := wrap_size (depth - 1) in
        if depth' =? 0 then Some i else scan_brackets rest' (S i) depth'
      else scan_brackets rest' (S i) depth
  end.

Definition extractTestSuiteArray (html : cstring) : cstring :=
  match find_str html marker 0 with
  | None => []
  | Some pos =>
      match find_chr html "["%char pos with
      | None => []
      | Some pos' =>
          let start := pos' in
          match scan_brackets (skipn pos' html) pos' 0 with
          | Some i => substr html start (i - start + 1)
          | None => []
          end
      end
  end.

(** ** Exceptions

    [std::stoi] is the only operation of the parser that can throw.  A
    computation either returns a value or leaves by an exception. *)

Inductive exn := invalid_argument | out_of_range.

Inductive completion (A : Type) :=
| Returned (a : A)
| Threw (e : exn).
Arguments Returned {A} a.
Arguments Threw {A} e.

Definition bind {A B} (c : completion A) (k : A -> completion B) : completion B :=
  match c with
  | Returned a => k a
  | Threw e => Threw e
  end.

Notation "x <- c ;; k" := (bind c (fun x => k))
  (at level 61, c at next level, right associativity).

(** ** <cctype> and std::stoi *)

Definition isspace (c : ascii) : bool :=
  let n := nat_of_ascii c in
  ((n =? 32) || ((9 <=? n) && (n <=? 13)))%nat.

Definition isdigit (c : ascii) : bool :=
  let n := nat_of_ascii c in
  ((48 <=? n) && (n <=? 57))%nat.

Fixpoint skip_spaces (s : cstring) : cstring :=
  match s with
  | c :: s' => if isspace c then skip_spaces s' else s
  | [] => []
  end.

Fixpoint take_digits (s : cstring) : cstring :=
  match s with
  | c :: s' => if isdigit c then c :: take_digits s' else []
  | [] => []
  end.

Definition digit_value (c : ascii) : Z := Z.of_nat (nat_of_ascii c) - 48.

Definition digits_value (ds : cstring) : Z :=
  fold_left (fun acc c => acc * 10 + digit_value c) ds 0.

(** [std::stoi(s)], base 10: leading white space, an optional sign and a run
    of digits; [std::invalid_argument] when there is no digit,
    [std::out_of_range] when the value does not fit [int]. *)
Definition stoi (s : cstring) : completion Z :=
  let s1 := skip_spaces s in
  let '(neg, s2) :=
    match s1 with
    | c :: r =>
        if Ascii.eqb c "-"%char then (true, r)
        else if Ascii.eqb c "+"%char then (false, r)
        else (false, s1)
    | [] => (false, s1)
    end in
  let ds := take_digits s2 in
  if empty ds then Threw invalid_argument
  else
    let v := if neg then - digits_value ds else digits_value ds in
    if (v <? INT_MIN) || (INT_MAX <? v) then Threw out_of_range
    else Returned v.

(** ** parseObject *)

(** [while (p < objText.size() && f(objText[p])) p++], with [rest] the text
    from index [p] on. *)
Fixpoint advance_while (f : ascii -> bool) (rest : cstring) (p : nat) : nat :=
  match rest with
  | c :: rest' => if f c then advance_while f rest' (S p) else p
  | [] => p
  end.

Definition getString (objText key : cstring) : cstring :=
  let pat := key ++ str ":" in
  match find_str objText pat 0 with
  | None => []
  | Some p =>
      match find_chr objText dquote p with
      | None => []
      | Some p =>
          match find_chr objText dquote (p + 1) with
          | None => []
          | Some q => substr objText (p + 1) (q - (p + 1))
          end
      end
  end.

Definition getInt (objText key : cstring) : completion Z :=
  let pat := key ++ str ":" in
  match find_str objText pat 0 with
  | None => Returned 0
  | Some p =>
      let p := (p + length pat)%nat in
      let p := advance_while isspace (skipn p objText) p in
      let q := advance_while isdigit (skipn p objText) p in
      stoi (substr objText p (q - p))
  end.

(** [parseObject(objText, t)]: the boolean result and the record written
    through [t]. *)
Definition parseObject (objText : cstring) : completion (bool * Test) :=
  let t_id := getString objText (str "id") in
  let t_provider := getString objText (str "provider") in
  let t_url := getString objText (str "url") in
  t_times <- getInt objText (str "times") ;;
  Returned (negb (empty t_id), mkTest t_id t_provider t_url t_times).

(** ** parseTestSuiteVector *)

(** The inner [for] loop: the index of the closing brace at which [depth]
    returns to zero. *)
Fixpoint scan_braces (rest : cstring) (j : nat) (depth : Z) : option nat :=
  match rest with
  | [] => None
  | c :: rest' =>
      if Ascii.eqb c "{"%char then scan_braces rest' (S j) (wrap_int (depth + 1))
      else if Ascii.eqb c "}"%char then
        let depth' := wrap_int (depth - 1) in
        if depth' =? 0 then Some j else scan_braces rest' (S j) depth'
      else scan_braces rest' (S j) depth
  end.

(** The state of the caller's vector together with the way the call ended. *)
Definition vec_result : Type := list Test * completion unit.

(** The [while] loop, one iteration per unit of [fuel]; [None] when the fuel
    does not suffice. *)
Fixpoint parse_loop (fuel : nat) (arrayText : cstring) (i : nat) (out : list Test)
  : option vec_result :=
  match fuel with
  | O => None
  | S fuel' =>
      if (i <? length arrayText)%nat then
        match find_chr arrayText "{"%char i with
        | None => Some (out, Returned tt)
        | Some p =>
            let start := p in
            match scan_braces (skipn p arrayText) p 0 with
            | Some j =>
                let obj := substr arrayText start (j - start + 1) in
                match parseObject obj with
                | Threw e => Some (out, Threw e)
                | Returned (true, t) =>
                    parse_loop fuel' arrayText (j + 1 + 1) (out ++ [t])
                | Returned (false, _) =>
                    parse_loop fuel' arrayText (j + 1 + 1) out
                end
            | None => parse_loop fuel' arrayText (i + 1) out
            end
        end
      else Some (out, Returned tt)
  end.

Definition parseTestSuiteVector (arrayText : cstring) (out : list Test)
  : option vec_result :=
  parse_loop (S (length arrayText)) arrayText 0 out.

(** ** loadTestSuiteFromUrl *)

Section Loader.

(** [fetchHtml(url, html)] of the source wraps libcurl: the flag it returns
    and the content of [html] afterwards. *)
Variable fetchHtml : cstring -> cstring -> bool * cstring.

Definition loadTestSuiteFromUrl (tests : list Test) (url : cstring)
  : option vec_result :=
  let '(ok, html) := fetchHtml url [] in
  if negb ok then Some (tests, Returned tt)
  else
    let arr := extractTestSuiteArray html in
    if empty arr then Some (tests, Returned tt)
    else
      let tests := @nil Test in
      parseTestSuiteVector arr tests.

End Loader.

(** ** Transfer callbacks *)

Definition write_cb (size nmemb : Z) (res : Result) : Result * Z :=
  let real := wrap_size (size * nmemb) in
  (mkResult (r_id res) (r_provider res) (http_code res)
            (wrap_size (received res + real))
            (status res) (detail res) (elapsed_ms res) (aborted_by_threshold res),
   real).

Definition xferinfo_cb (res : Result) : Result * Z :=
  if OK_THRESHOLD_BYTES <=? received res then
    (mkResult (r_id res) (r_provider res) (http_code res) (received res)
              (status res) (detail res) (elapsed_ms res) true,
     1)
  else (res, 0).

(** ** worker *)

(** [std::to_string(int)] *)
Definition to_string (z : Z) : cstring := str (NilZero.string_of_int (Z.to_int z)).

(** libcurl's result codes that [worker] distinguishes. *)
Definition CURLE_OK : Z := 0.
Definition CURLE_OPERATION_TIMEDOUT : Z := 28.
Definition CURLE_ABORTED_BY_CALLBACK : Z := 42.

(** The [Result] with which [worker] starts. *)
Definition worker_init (t : Test) (idx : Z) : Result :=
  mkResult (if 1 <? times t then id t ++ str "@" ++ to_string idx else id t)
           (provider t) 0 0 [] [] 0%Q false.

Definition set_diagnosis (res : Result) (st dt : cstring) : Result :=
  mkResult (r_id res) (r_provider res) (http_code res) (received res)
           st dt (elapsed_ms res) (aborted_by_threshold res).

Section Worker.

Variable curl_easy_strerror : Z -> cstring.

(** The [switch (rc)] of [worker]. *)
Definition worker_classify (rc : Z) (res : Result) : Result :=
  if rc =? CURLE_OK then
    if OK_THRESHOLD_BYTES <=? received res then
      set_diagnosis res (str "Not detected ✅") (str "Received >= threshold")
    else
      set_diagnosis res (str "Possibly detected ⚠️") (str "Stream ended, data too small")
  else if rc =? CURLE_OPERATION_TIMEDOUT then
    if received res =? 0 then
      set_diagnosis res (str "Detected* ❗️")
                    (str "Timeout with zero bytes (likely connection blocked)")
    else
      set_diagnosis res (str "Detected ❗️")
                    (str "Timeout after partial data (read blocked)")
  else if rc =? CURLE_ABORTED_BY_CALLBACK then
    if aborted_by_threshold res then
      set_diagnosis res (str "Not detected ✅") (str "Early abort: threshold reached")
    else
      set_diagnosis res (str "Detected ❗️") (str "Unexpected abort before threshold")
  else
    set_diagnosis res (str "Failed to complete detection ⚠️")
                  (str "curl_error=" ++ to_string rc ++ str " ("
                       ++ curl_easy_strerror rc ++ str ")").

End Worker.

(** ** main: the dispatch loops *)

(** [for (int i = 0; i < t.times; ++i)] *)
Definition repetitions (t : Test) : list Z :=
  map Z.of_nat (seq 0 (Z.to_nat (times t))).

(** The arguments of the [worker] threads that [main] starts, in order. *)
Definition spawned (tests : list Test) : list (Test * Z) :=
  flat_map (fun t => map (fun i => (t, i)) (repetitions t)) tests.

Definition result_ids (tests : list Test) : list cstring :=
  map (fun ti => r_id (worker_init (fst ti) (snd ti))) (spawned tests).

(** ** Sample texts *)

(** A quoted string literal of a suite document. *)
Definition q (s : string) : cstring := dquote :: str s ++ [dquote].


(** ** Balanced brackets *)

Definition bracket_delta (c : ascii) : Z :=
  if Ascii.eqb c "["%char then 1
  else if Ascii.eqb c "]"%char then -1
  else 0.

(** Opening minus closing brackets. *)
Fixpoint bdepth (l : cstring) : Z :=
  match l with
  | [] => 0
  | c :: l' => bracket_delta c + bdepth l'
  end.

(** No closing bracket without an earlier opening one, and none left open. *)
Fixpoint balanced_from (d : Z) (l : cstring) : bool :=
  match l with
  | [] => d =? 0
  | c :: l' => (0 <=? d + bracket_delta c) && balanced_from (d + bracket_delta c) l'
  end.

Definition balanced (l : cstring) : bool := balanced_from 0 l.

(** ** Diagnoses *)

(** The diagnoses of the decision table: Not detected, Possibly detected,
    Detected (probable), Detected, Failed to complete. *)
Inductive Diagnosis :=
| NotDetected
| PossiblyDetected
| DetectedProbable
| Detected
| FailedToComplete.

(** The status text with which [worker] reports each diagnosis. *)
Definition status_text (d : Diagnosis) : cstring :=
  match d with
  | NotDetected => str "Not detected ✅"
  | PossiblyDetected => str "Possibly detected ⚠️"
  | DetectedProbable => str "Detected* ❗️"
  | Detected => str "Detected ❗️"
  | FailedToComplete => str "Failed to complete detection ⚠️"
  end.

Fixpoint cstring_eqb (a b : cstring) : bool :=
  match a, b with
  | [], [] => true
  | x :: a', y :: b' => Ascii.eqb x y && cstring_eqb a' b'
  | _, _ => false
  end.

(** The diagnosis that a status text stands for. *)
Definition diagnosis_of_status (s : cstring) : option Diagnosis :=
  find (fun d => cstring_eqb (status_text d) s)
       [NotDetected; PossiblyDetected; DetectedProbable; Detected; FailedToComplete].

(** The four outcomes of a transfer that the switch tells apart. *)
Inductive Outcome := Success | TimedOut | AbortedByCallback | OtherError.

Definition outcome_of (rc : Z) : Outcome :=
  if rc =? CURLE_OK then Success
  else if rc =? CURLE_OPERATION_TIMEDOUT then TimedOut
  else if rc =? CURLE_ABORTED_BY_CALLBACK then AbortedByCallback
  else OtherError.

(** ** Sample documents *)

(** A document that publishes the suite under the bare name, without the
    [const] keyword. *)
Definition bare_document : cstring := str "TEST_SUITE = [1,2];".

(** A list as the caller may hold it before the loader runs. *)
Definition builtin_sample : list Test :=
  [mkTest (str "US.CF-01") (str "Cloudflare") (str "https://example.org/a.js") 1;
   mkTest (str "US.DO-01") (str "DigitalOcean") (str "https://example.org/") 2].

(** A document whose array holds one record, without [id]. *)
Definition document_without_ids : cstring :=
  str "const TEST_SUITE = [ {provider:" ++ q "x" ++ str "} ];".

(** A document whose second record has a [times] that is not a number. *)
Definition document_bad_times : cstring :=
  str "const TEST_SUITE = [ {id:" ++ q "A" ++ str ", times: 1}, {id:" ++ q "B"
      ++ str ", times: x} ];".

(** The text of an object with the content [b] between its braces. *)
Definition object_text (b : cstring) : cstring := "{"%char :: b ++ ["}"%char].

(** The vector and the completion after the scan of a text that consists of
    one object. *)
Definition after_object (b : cstring) (out : list Test) : option vec_result :=
  match parseObject (object_text b) with
  | Threw e => Some (out, Threw e)
  | Returned (true, t) => Some (out ++ [t], Returned tt)
  | Returned (false, _) => Some (out, Returned tt)
  end.

(** ** trim *)

Definition mem_chr (c : ascii) (set : cstring) : bool :=
  existsb (Ascii.eqb c) set.

Fixpoint find_first_not_of_from (set rest : cstring) (i : nat) : option nat :=
  match rest with
  | [] => None
  | c :: rest' =>
      if mem_chr c set then find_first_not_of_from set rest' (S i) else Some i
  end.

(** [s.find_first_not_of(set)] *)
Definition find_first_not_of (s set : cstring) : option nat :=
  find_first_not_of_from set s 0.

Fixpoint find_last_not_of_from (set rest : cstring) (i : nat) : option nat :=
  match rest with
  | [] => None
  | c :: rest' =>
      match find_last_not_of_from set rest' (S i) with
      | Some k => Some k
      | None => if mem_chr c set then None else Some i
      end
  end.

(** [s.find_last_not_of(set)] *)
Definition find_last_not_of (s set : cstring) : option nat :=
  find_last_not_of_from set s 0.

(** The characters that [trim] removes: space, tab, line feed, carriage
    return. *)
Definition trim_set : cstring :=
  [ascii_of_nat 32; ascii_of_nat 9; ascii_of_nat 10; ascii_of_nat 13].

(** The characters of [trim_set]. *)
Definition trimmed_away (c : ascii) : Prop := mem_chr c trim_set = true.

(** [trim(s)].  [b] is computed before [a] is tested; with [b == npos] the
    count [b - a + 1] is the [size_t] value of [npos - a + 1]. *)
Definition trim (s : cstring) : cstring :=
  let a := find_first_not_of s trim_set in
  let b := find_last_not_of s trim_set in
  match a with
  | None => []
  | Some a =>
      let b := match b with Some b => Z.of_nat b | None => 2 ^ 64 - 1 end in
      substr s a (Z.to_nat (wrap_size (b - Z.of_nat a + 1)))
  end.

(** ** log_result: the status column *)

(** [if (status.size() > 20) status = status.substr(0, 17) + "..."] *)
Definition log_result_status (res : Result) : cstring :=
  let status := status res in
  if (20 <? length status)%nat then substr status 0 17 ++ str "..." else status.

(** ** The transfer as libcurl drives it *)

(** What [curl_easy_perform] does with the two callbacks that [worker]
    registers: it delivers chunks to [write_cb] and ticks to [xferinfo_cb]. *)
Inductive curl_event :=
| ev_write (size nmemb : Z)
| ev_progress.

Definition on_event (res : Result) (e : curl_event) : Result :=
  match e with
  | ev_write size nmemb => fst (write_cb size nmemb res)
  | ev_progress => fst (xferinfo_cb res)
  end.

(** The [Result] after a sequence of callbacks.  libcurl stops calling once
    [xferinfo_cb] has returned non-zero; the sequences it can produce are
    among the ones considered here. *)
Definition run_callbacks (events : list curl_event) (res : Result) : Result :=
  fold_left on_event events res.

(** The bytes handed to [write_cb]. *)
Definition event_bytes (e : curl_event) : Z :=
  match e with
  | ev_write size nmemb => size * nmemb
  | ev_progress => 0
  end.

Definition bytes_of (events : list curl_event) : Z :=
  fold_right (fun e acc => event_bytes e + acc) 0 events.

Definition valid_event (e : curl_event) : Prop :=
  match e with
  | ev_write size nmemb => 0 <= size /\ 0 <= nmemb
  | ev_progress => True
  end.

(** The URL that [worker] requests: the cache-busting parameter carries the
    hash value [h]. *)
Definition worker_url (url : cstring) (h : Z) : cstring :=
  match find_chr url "?"%char 0 with
  | None => url ++ str "?t=" ++ to_string h
  | Some _ => url ++ str "&t=" ++ to_string h
  end.

(** [worker] from the creation of the [Result] to the end of the [switch],
    for a handle that [curl_easy_init] did return: [events] and [rc] are what
    [curl_easy_perform] did and returned, [code] the response code reported
    by [curl_easy_getinfo], [elapsed] the measured time. *)
Definition worker (curl_easy_strerror : Z -> cstring) (t : Test) (idx : Z)
    (events : list curl_event) (rc code : Z) (elapsed : Q) : Result :=
  let res := worker_init t idx in
  let res := run_callbacks events res in
  let res := mkResult (r_id res) (r_provider res) code (received res)
                      (status res) (detail res) elapsed
                      (aborted_by_threshold res) in
  worker_classify curl_easy_strerror rc res.

(** * Properties *)

(** ** Sample runs *)

Example extract_ex1 :
  extractTestSuiteArray (str "x const TEST_SUITE = [1,[2],3]; [4]") = str "[1,[2],3]".
Proof. reflexivity. Qed.

Example parse_ex1 :
  parseTestSuiteVector
    (str "[{id:" ++ q "A" ++ str ", provider:" ++ q "P" ++ str ", url:" ++ q "u"
         ++ str ", times: 3}, {provider:" ++ q "Q" ++ str "}]") []
  = Some ([mkTest (str "A") (str "P") (str "u") 3], Returned tt).
Proof. reflexivity. Qed.

Example parse_ex2 :
  parseTestSuiteVector (str "[{id:" ++ q "A" ++ str ", times: x}]") []
  = Some ([], Threw invalid_argument).
Proof. reflexivity. Qed.

Example ids_ex :
  result_ids [mkTest (str "A") [] [] 3] = [str "A@0"; str "A@1"; str "A@2"].
Proof. reflexivity. Qed.

(** ** The string primitives *)

Lemma find_chr_from_spec (c : ascii) (rest : cstring) (i : nat) :
  match find_chr_from c rest i with
  | Some p => exists pre tail,
      rest = pre ++ c :: tail /\ p = (i + length pre)%nat /\ ~ In c pre
  | None => ~ In c rest
  end.
Proof.
  revert i; induction rest as [|b rest IH]; intros i; simpl.
  - tauto.
  - destruct (Ascii.eqb b c) eqn:E.
    + apply Ascii.eqb_eq in E; subst b.
      exists [], rest; simpl; repeat split; auto with arith.
    + apply Ascii.eqb_neq in E.
      specialize (IH (S i)).
      destruct (find_chr_from c rest (S i)) as [p|].
      * destruct IH as (pre & tail & -> & -> & Hn).
        exists (b :: pre), tail; simpl; repeat split; try lia.
        intros [H|H]; [congruence | tauto].
      * intros [H|H]; [congruence | tauto].
Qed.

Lemma find_chr_spec (s : cstring) (c : ascii) (pos p : nat) :
  find_chr s c pos = Some p ->
  exists pre tail,
    skipn pos s = pre ++ c :: tail /\ p = (pos + length pre)%nat /\
    ~ In c pre /\ skipn p s = c :: tail.
Proof.
  unfold find_chr; intros H.
  pose proof (find_chr_from_spec c (skipn pos s) pos) as S0.
  rewrite H in S0; destruct S0 as (pre & tail & E & -> & Hn).
  exists pre, tail; repeat split; auto.
  rewrite Nat.add_comm, <- skipn_skipn, E.
  rewrite skipn_app, skipn_all, Nat.sub_diag; reflexivity.
Qed.

Lemma find_chr_none (s : cstring) (c : ascii) (pos : nat) :
  find_chr s c pos = None -> ~ In c (skipn pos s).
Proof.
  unfold find_chr; intros H.
  pose proof (find_chr_from_spec c (skipn pos s) pos) as S0.
  now rewrite H in S0.
Qed.

Lemma prefix_of_spec (pat s : cstring) :
  prefix_of pat s = true <-> exists post, s = pat ++ post.
Proof.
  revert s; induction pat as [|a pat IH]; intros s; simpl.
  - split; [intros _; now exists s | auto].
  - destruct s as [|b s].
    + split; [discriminate | intros [post H]; discriminate].
    + rewrite andb_true_iff, Ascii.eqb_eq, IH; split.
      * intros [-> [post ->]]; now exists post.
      * intros [post H]; injection H as -> ->; split; [auto | now exists post].
Qed.

Lemma find_str_from_spec (pat rest : cstring) (i : nat) :
  match find_str_from pat rest i with
  | Some p => exists pre post,
      rest = pre ++ pat ++ post /\ p = (i + length pre)%nat
  | None => forall pre post, rest <> pre ++ pat ++ post
  end.
Proof.
  revert i; induction rest as [|b rest IH]; intros i; simpl.
  - destruct (prefix_of pat []) eqn:E.
    + apply prefix_of_spec in E; destruct E as [post E].
      exists [], post; simpl; split; [auto | lia].
    + intros pre post H.
      destruct pre; simpl in H.
      * assert (prefix_of pat [] = true) by (apply prefix_of_spec; now exists post).
        congruence.
      * discriminate.
  - destruct (prefix_of pat (b :: rest)) eqn:E.
    + apply prefix_of_spec in E; destruct E as [post E].
      exists [], post; simpl; split; [auto | lia].
    + specialize (IH (S i)).
      destruct (find_str_from pat rest (S i)) as [p|].
      * destruct IH as (pre & post & -> & ->).
        exists (b :: pre), post; simpl; split; [auto | lia].
      * intros pre post H.
        destruct pre as [|b' pre]; simpl in H.
        -- assert (prefix_of pat (b :: rest) = true)
             by (apply prefix_of_spec; now exists post).
           congruence.
        -- injection H as _ H; now apply IH in H.
Qed.

(** [s.find(pat)] fails exactly on the texts that do not contain [pat]. *)
Lemma find_str_none (s pat : cstring) :
  find_str s pat 0 = None -> forall pre post, s <> pre ++ pat ++ post.
Proof.
  unfold find_str; simpl; intros H.
  pose proof (find_str_from_spec pat s 0) as S0.
  now rewrite H in S0.
Qed.

Lemma find_str_some (s pat : cstring) (p : nat) :
  find_str s pat 0 = Some p ->
  exists pre post, s = pre ++ pat ++ post /\ p = length pre.
Proof.
  unfold find_str; simpl; intros H.
  pose proof (find_str_from_spec pat s 0) as S0.
  rewrite H in S0; destruct S0 as (pre & post & E & ->).
  now exists pre, post.
Qed.

Lemma bdepth_app (l1 l2 : cstring) : bdepth (l1 ++ l2) = bdepth l1 + bdepth l2.
Proof. induction l1 as [|c l1 IH]; simpl; lia. Qed.

Lemma balanced_from_total (d : Z) (l : cstring) :
  balanced_from d l = true -> d + bdepth l = 0.
Proof.
  revert d; induction l as [|c l IH]; intros d; simpl.
  - rewrite Z.eqb_eq; lia.
  - rewrite andb_true_iff; intros [_ H]; apply IH in H; lia.
Qed.

Lemma balanced_from_intro (d : Z) (l : cstring) :
  (forall m, 0 <= d + bdepth (firstn m l)) ->
  d + bdepth l = 0 ->
  balanced_from d l = true.
Proof.
  revert d; induction l as [|c l IH]; intros d Hp Ht; simpl in *.
  - apply Z.eqb_eq; lia.
  - apply andb_true_iff; split.
    + apply Z.leb_le. specialize (Hp 1%nat); simpl in Hp.
      try rewrite firstn_O in Hp; simpl in Hp; lia.
    + apply IH; [|lia].
      intros m; specialize (Hp (S m)); simpl in Hp; lia.
Qed.

Lemma wrap_size_id (z : Z) : 0 <= z < 2 ^ 64 -> wrap_size z = z.
Proof. intros H; unfold wrap_size; now apply Z.mod_small. Qed.

(** What the bracket loop computes once it is inside the array ([depth >= 1]):
    the first closing bracket that brings the depth back to zero, if any. *)
Lemma scan_brackets_spec (rest : cstring) (i : nat) (d : Z) :
  1 <= d -> d + Z.of_nat (length rest) < 2 ^ 64 ->
  match scan_brackets rest i d with
  | Some j => exists body tail,
      rest = body ++ "]"%char :: tail /\ j = (i + length body)%nat /\
      d + bdepth body = 1 /\
      (forall m, 0 < d + bdepth (firstn m body))
  | None => forall m, 0 < d + bdepth (firstn m rest)
  end.
Proof.
  revert i d; induction rest as [|c rest IH]; intros i d Hd Hlen.
  - simpl; intros m; rewrite firstn_nil; simpl; lia.
  - simpl scan_brackets. simpl length in Hlen.
    destruct (Ascii.eqb c "[") eqn:Eo.
    + rewrite wrap_size_id by lia.
      specialize (IH (S i) (d + 1)).
      destruct (scan_brackets rest (S i) (d + 1)) as [j|].
      * destruct IH as (body & tail & -> & -> & Ht & Hp); try lia.
        exists (c :: body), tail; simpl; unfold bracket_delta; rewrite Eo.
        repeat split; try lia.
        intros [|m]; simpl; [lia|]. unfold bracket_delta; rewrite Eo.
        specialize (Hp m); lia.
      * intros [|m]; simpl; [lia|]. unfold bracket_delta; rewrite Eo.
        specialize (IH ltac:(lia) ltac:(lia) m); lia.
    + destruct (Ascii.eqb c "]") eqn:Ec.
      * rewrite wrap_size_id by lia. cbv zeta.
        destruct (d - 1 =? 0) eqn:Ez.
        -- apply Z.eqb_eq in Ez. apply Ascii.eqb_eq in Ec; subst c.
           exists [], rest; simpl; repeat split; try lia.
           intros m; rewrite firstn_nil; simpl; lia.
        -- apply Z.eqb_neq in Ez.
           specialize (IH (S i) (d - 1)).
           destruct (scan_brackets rest (S i) (d - 1)) as [j|].
           ++ destruct IH as (body & tail & -> & -> & Ht & Hp); try lia.
              exists (c :: body), tail; simpl; unfold bracket_delta; rewrite Eo, Ec.
              repeat split; try lia.
              intros [|m]; simpl; [lia|]. unfold bracket_delta; rewrite Eo, Ec.
              specialize (Hp m); lia.
           ++ intros [|m]; simpl; [lia|]. unfold bracket_delta; rewrite Eo, Ec.
              specialize (IH ltac:(lia) ltac:(lia) m); lia.
      * specialize (IH (S i) d).
        destruct (scan_brackets rest (S i) d) as [j|].
        -- destruct IH as (body & tail & -> & -> & Ht & Hp); try lia.
           exists (c :: body), tail; simpl; unfold bracket_delta; rewrite Eo, Ec.
           repeat split; try lia.
           intros [|m]; simpl; [lia|]. unfold bracket_delta; rewrite Eo, Ec.
           specialize (Hp m); lia.
        -- intros [|m]; simpl; [lia|]. unfold bracket_delta; rewrite Eo, Ec.
           specialize (IH ltac:(lia) ltac:(lia) m); lia.
Qed.

(** ** extractTestSuiteArray *)

Lemma firstn_closing (body tail : cstring) (n : nat) :
  n = (length body + 2)%nat ->
  firstn n ("["%char :: body ++ "]"%char :: tail) = "["%char :: body ++ ["]"%char].
Proof.
  intros ->. replace (length body + 2)%nat with (S (length body + 1)) by lia.
  simpl. f_equal.
  rewrite firstn_app, firstn_all2 by lia.
  replace (length body + 1 - length body)%nat with 1%nat by lia.
  reflexivity.
Qed.

(** The three ways in which the extractor ends, in terms of the text. *)
Lemma extract_cases (html : cstring) :
  Z.of_nat (length html) < 2 ^ 64 ->
  match find_str html marker 0 with
  | None => extractTestSuiteArray html = []
  | Some pos =>
      match find_chr html "["%char pos with
      | None => extractTestSuiteArray html = []
      | Some p =>
          (exists body tail,
              skipn p html = "["%char :: body ++ "]"%char :: tail /\
              extractTestSuiteArray html = "["%char :: body ++ ["]"%char] /\
              bdepth body = 0 /\
              (forall m, 0 <= bdepth (firstn m body)))
          \/ (extractTestSuiteArray html = [] /\
              forall m, 0 < bdepth (firstn (S m) (skipn p html)))
      end
  end.
Proof.
  intros Hlen. unfold extractTestSuiteArray.
  destruct (find_str html marker 0) as [pos|]; [|reflexivity].
  destruct (find_chr html "[" pos) as [p|] eqn:Ep; [|reflexivity].
  apply find_chr_spec in Ep. destruct Ep as (pre & tl & _ & _ & _ & Es).
  rewrite Es. simpl scan_brackets.
  assert (Hl : (length tl < length html)%nat).
  { assert (H : length (skipn p html) = S (length tl)) by now rewrite Es.
    rewrite length_skipn in H. lia. }
  rewrite wrap_size_id by lia.
  pose proof (scan_brackets_spec tl (S p) 1 ltac:(lia) ltac:(lia)) as S0.
  destruct (scan_brackets tl (S p) 1) as [j|].
  - left. destruct S0 as (body & tail & -> & -> & Ht & Hp).
    exists body, tail. split; [reflexivity|]. split; [|split; [lia|]].
    + unfold substr. rewrite Es. apply firstn_closing. lia.
    + intros m. specialize (Hp m). lia.
  - right. split; [reflexivity|].
    intros m. cbn [firstn bdepth]. specialize (S0 m).
    change (bracket_delta "[") with 1. lia.
Qed.

Lemma balanced_array (body : cstring) :
  bdepth body = 0 ->
  (forall m, 0 <= bdepth (firstn m body)) ->
  balanced ("["%char :: body ++ ["]"%char]) = true.
Proof.
  intros Ht Hp. unfold balanced.
  change (balanced_from 1 (body ++ ["]"%char]) = true).
  apply balanced_from_intro.
  - intros m. rewrite firstn_app, bdepth_app.
    specialize (Hp m).
    destruct (m - length body)%nat as [|k].
    + rewrite firstn_O. cbn [bdepth]. lia.
    + cbn [firstn bdepth]. rewrite firstn_nil. cbn [bdepth].
      change (bracket_delta "]") with (-1).
      destruct (Nat.le_gt_cases (length body) m) as [Hm|Hm].
      * rewrite firstn_all2 by lia. lia.
      * lia.
  - rewrite bdepth_app. cbn [bdepth]. change (bracket_delta "]") with (-1). lia.
Qed.

Lemma find_chr_absent (s : cstring) (c : ascii) (pos : nat) :
  ~ In c (skipn pos s) -> find_chr s c pos = None.
Proof.
  intros Hn. destruct (find_chr s c pos) as [p|] eqn:E; [|reflexivity].
  apply find_chr_spec in E. destruct E as (pre & tail & E & _).
  exfalso. apply Hn. rewrite E. apply in_or_app. right. now left.
Qed.

Lemma find_str_absent (s pat : cstring) :
  (forall pre post, s <> pre ++ pat ++ post) -> find_str s pat 0 = None.
Proof.
  intros Hn. destruct (find_str s pat 0) as [p|] eqn:E; [|reflexivity].
  apply find_str_some in E. destruct E as (pre & post & E & _).
  now apply Hn in E.
Qed.

(** The successful case: the result is an array literal cut out of the
    text at the bracket. *)
Lemma extractTestSuiteArray_array (html : cstring) (pos p n : nat) :
  Z.of_nat (length html) < 2 ^ 64 ->
  find_str html marker 0 = Some pos ->
  find_chr html "["%char pos = Some p ->
  (0 < n)%nat ->
  balanced (substr html p n) = true ->
  exists body,
    extractTestSuiteArray html = "["%char :: body ++ ["]"%char].
Proof.
  intros Hlen Hm Hb Hn Hbal. pose proof (extract_cases html Hlen) as C.
  rewrite Hm, Hb in C.
  destruct C as [(body & tail & Es & Er & Ht & Hp) | [_ Hpos]].
  - now exists body.
  - exfalso. destruct n as [|m]; [lia|].
    unfold substr, balanced in Hbal. apply balanced_from_total in Hbal.
    specialize (Hpos m). lia.
Qed.

(** C5.  For every text (of a size a [std::string] can have): when the marker
    is present, the first opening bracket from its first occurrence on is at
    [p] and some non-empty piece of the text that starts at [p] has balanced
    brackets, the extractor returns a piece of the text that starts at [p],
    begins with an opening bracket, ends with a closing bracket and has
    balanced brackets.  When the marker does not occur in the text, when no
    opening bracket follows it, or when no piece of the text that starts at
    that bracket is balanced, the extractor returns the empty string. *)
Theorem extractTestSuiteArray_correct (html : cstring) :
  Z.of_nat (length html) < 2 ^ 64 ->
  (forall pos p n,
      find_str html marker 0 = Some pos ->
      find_chr html "["%char pos = Some p ->
      (0 < n)%nat ->
      balanced (substr html p n) = true ->
      exists body,
        extractTestSuiteArray html = "["%char :: body ++ ["]"%char] /\
        balanced (extractTestSuiteArray html) = true /\
        extractTestSuiteArray html
        = substr html p (length (extractTestSuiteArray html)))
  /\ ((forall pre post, html <> pre ++ marker ++ post) ->
      extractTestSuiteArray html = [])
  /\ (forall pos,
         find_str html marker 0 = Some pos ->
         ~ In "["%char (skipn pos html) ->
         extractTestSuiteArray html = [])
  /\ (forall pos p,
         find_str html marker 0 = Some pos ->
         find_chr html "["%char pos = Some p ->
         (forall n, (0 < n)%nat -> balanced (substr html p n) = false) ->
         extractTestSuiteArray html = []).
Proof.
  intros Hlen. pose proof (extract_cases html Hlen) as C.
  repeat split.
  - intros pos p n Hm Hb Hn Hbal. rewrite Hm, Hb in C.
    destruct C as [(body & tail & Es & Er & Ht & Hp) | [_ Hpos]].
    + exists body. split; [exact Er|]. rewrite Er. split.
      * now apply balanced_array.
      * unfold substr. rewrite Es. symmetry. apply firstn_closing.
        rewrite length_cons, length_app. simpl. lia.
    + exfalso. destruct n as [|m]; [lia|].
      unfold substr, balanced in Hbal. apply balanced_from_total in Hbal.
      specialize (Hpos m). lia.
  - intros Hn. apply find_str_absent in Hn. now rewrite Hn in C.
  - intros pos Hm Hn. apply find_chr_absent in Hn. now rewrite Hm, Hn in C.
  - intros pos p Hm Hb Hnb. rewrite Hm, Hb in C.
    destruct C as [(body & tail & Es & Er & Ht & Hp) | [Er _]]; [|exact Er].
    exfalso.
    specialize (Hnb (length body + 2)%nat ltac:(lia)).
    unfold substr in Hnb. rewrite Es, firstn_closing in Hnb by reflexivity.
    rewrite balanced_array in Hnb by assumption. discriminate.
Qed.

Lemma extractTestSuiteArray_correct_witness :
  exists body,
    extractTestSuiteArray (str "x const TEST_SUITE = [1,[2],3]; [4]")
    = "["%char :: body ++ ["]"%char].
Proof.
  destruct (extractTestSuiteArray_correct
              (str "x const TEST_SUITE = [1,[2],3]; [4]"))
    as [H _].
  - vm_compute. reflexivity.
  - destruct (H 2%nat 21%nat 9%nat) as [body [E _]];
      try reflexivity; [lia|].
    exists body. exact E.
Defined.

(** ** The marker of the loader *)

(** C3, as stated, does not hold: the token TEST_SUITE followed by a balanced
    array is not enough for the extraction to succeed. *)
Lemma bare_TEST_SUITE_is_not_the_marker :
  ~ (forall html pos p n,
        find_str html (str "TEST_SUITE") 0 = Some pos ->
        find_chr html "["%char pos = Some p ->
        (0 < n)%nat ->
        balanced (substr html p n) = true ->
        extractTestSuiteArray html <> []).
Proof.
  intros H.
  apply (H bare_document 0%nat 13%nat 5%nat); try reflexivity. lia.
Qed.

(** C3, amended.  The loader runs the extractor on the fetched document, and
    the marker of the extractor is the text [const TEST_SUITE]: for every
    fetched document in which the first opening bracket from the first
    occurrence of [const TEST_SUITE] on starts a balanced piece of text, the
    extraction succeeds and the loader goes on to parse the extracted array
    into the emptied list. *)
Theorem loader_uses_marker_const_TEST_SUITE
    (fetchHtml : cstring -> cstring -> bool * cstring)
    (tests : list Test) (url html : cstring) (pos p n : nat) :
  fetchHtml url [] = (true, html) ->
  Z.of_nat (length html) < 2 ^ 64 ->
  find_str html (str "const TEST_SUITE") 0 = Some pos ->
  find_chr html "["%char pos = Some p ->
  (0 < n)%nat ->
  balanced (substr html p n) = true ->
  extractTestSuiteArray html <> [] /\
  loadTestSuiteFromUrl fetchHtml tests url
  = parseTestSuiteVector (extractTestSuiteArray html) [].
Proof.
  intros Hf Hlen Hm Hb Hn Hbal.
  destruct (extractTestSuiteArray_array html pos p n Hlen Hm Hb Hn Hbal)
    as [body E].
  split.
  - rewrite E. discriminate.
  - unfold loadTestSuiteFromUrl. rewrite Hf. simpl negb. cbv iota.
    rewrite E. reflexivity.
Qed.

Lemma loader_uses_marker_const_TEST_SUITE_witness :
  extractTestSuiteArray (str "const TEST_SUITE = [1,2];") <> [] /\
  loadTestSuiteFromUrl (fun _ _ => (true, str "const TEST_SUITE = [1,2];")) [] []
  = parseTestSuiteVector (extractTestSuiteArray (str "const TEST_SUITE = [1,2];")) [].
Proof.
  apply (loader_uses_marker_const_TEST_SUITE
           (fun _ _ => (true, str "const TEST_SUITE = [1,2];")) [] []
           (str "const TEST_SUITE = [1,2];") 0%nat 19%nat 5%nat);
    try reflexivity; lia.
Defined.

(** ** loadTestSuiteFromUrl: the soft failures *)

(** C6.  Whatever list the caller holds: when the fetch fails, or when the
    extractor returns the empty string, the loader returns normally and the
    caller's list is the one it was. *)
Theorem loadTestSuiteFromUrl_soft_fail
    (fetchHtml : cstring -> cstring -> bool * cstring)
    (tests : list Test) (url : cstring) :
  fst (fetchHtml url []) = false \/
  extractTestSuiteArray (snd (fetchHtml url [])) = [] ->
  loadTestSuiteFromUrl fetchHtml tests url = Some (tests, Returned tt).
Proof.
  unfold loadTestSuiteFromUrl.
  destruct (fetchHtml url []) as [ok html]. simpl.
  intros [-> | ->].
  - reflexivity.
  - destruct ok; reflexivity.
Qed.

Lemma loadTestSuiteFromUrl_soft_fail_witness :
  loadTestSuiteFromUrl (fun _ _ => (false, str "partial")) builtin_sample (str "u")
  = Some (builtin_sample, Returned tt)
  /\ loadTestSuiteFromUrl (fun _ _ => (true, str "<html>no suite</html>"))
                          builtin_sample (str "u")
     = Some (builtin_sample, Returned tt).
Proof.
  split.
  - apply (loadTestSuiteFromUrl_soft_fail
             (fun _ _ => (false, str "partial")) builtin_sample (str "u")).
    left. reflexivity.
  - apply (loadTestSuiteFromUrl_soft_fail
             (fun _ _ => (true, str "<html>no suite</html>"))
             builtin_sample (str "u")).
    right. reflexivity.
Defined.

(** ** loadTestSuiteFromUrl: the list is emptied before it is filled *)

(** C1, on the code.  The extraction from [document_without_ids] succeeds and
    no record parses: the loader returns with the caller's list emptied,
    whatever it held.  On [document_bad_times] the loader is left by the
    exception of [std::stoi] while the caller's list holds the records parsed
    so far. *)
Theorem loadTestSuiteFromUrl_clears_first (tests : list Test) (url : cstring) :
  extractTestSuiteArray document_without_ids <> [] /\
  loadTestSuiteFromUrl (fun _ _ => (true, document_without_ids)) tests url
  = Some ([], Returned tt) /\
  loadTestSuiteFromUrl (fun _ _ => (true, document_bad_times)) tests url
  = Some ([mkTest (str "A") [] [] 1], Threw invalid_argument).
Proof.
  split; [discriminate|]. split; reflexivity.
Qed.

(** ** parseObject: the integer field *)

Lemma getInt_missing (objText key : cstring) :
  find_str objText (key ++ str ":") 0 = None ->
  getInt objText key = Returned 0.
Proof. unfold getInt. now intros ->. Qed.

(** [getInt] hands [std::stoi] the run of digits; when the run is empty,
    [std::stoi] throws. *)
Lemma getInt_empty_run (objText key : cstring) (p : nat) :
  find_str objText (key ++ str ":") 0 = Some p ->
  (let p1 := advance_while isspace
               (skipn (p + length (key ++ str ":")) objText)
               (p + length (key ++ str ":")) in
   advance_while isdigit (skipn p1 objText) p1 = p1) ->
  getInt objText key = Threw invalid_argument.
Proof.
  unfold getInt. intros -> H. cbv zeta in *. rewrite H, Nat.sub_diag.
  reflexivity.
Qed.

(** C2, on the code.  A [times] field whose content is not a run of digits
    (text, a negative number, nothing at all) makes [parseObject] leave by
    [std::invalid_argument]; a run of digits beyond [INT_MAX] makes it leave
    by [std::out_of_range].  No record is produced, with [times] 0 or
    otherwise. *)
Theorem parseObject_times_not_digits_throws :
  parseObject (str "{id:" ++ q "A" ++ str ", times: abc}") = Threw invalid_argument /\
  parseObject (str "{id:" ++ q "A" ++ str ", times: -5}") = Threw invalid_argument /\
  parseObject (str "{id:" ++ q "A" ++ str ", times:}") = Threw invalid_argument /\
  parseObject (str "{id:" ++ q "A" ++ str ", times: 99999999999}") = Threw out_of_range /\
  parseObject (str "{id:" ++ q "A" ++ str "}")
  = Returned (true, mkTest (str "A") [] [] 0).
Proof. repeat split; reflexivity. Qed.

(** ** parseTestSuiteVector: termination *)

Lemma find_chr_ge (s : cstring) (c : ascii) (pos p : nat) :
  find_chr s c pos = Some p -> (pos <= p)%nat.
Proof.
  intros H. apply find_chr_spec in H. destruct H as (pre & _ & _ & -> & _). lia.
Qed.

Lemma scan_braces_ge (rest : cstring) (j : nat) (depth : Z) (k : nat) :
  scan_braces rest j depth = Some k -> (j <= k)%nat.
Proof.
  revert j depth; induction rest as [|c rest IH]; intros j depth; simpl.
  - discriminate.
  - destruct (Ascii.eqb c "{").
    + intros H. apply IH in H. lia.
    + destruct (Ascii.eqb c "}").
      * destruct (wrap_int (depth - 1) =? 0).
        -- intros H. injection H as <-. lia.
        -- intros H. apply IH in H. lia.
      * intros H. apply IH in H. lia.
Qed.

(** Every iteration moves [i] forward, so the distance to the end of the
    text bounds the number of iterations. *)
Lemma parse_loop_terminates (fuel : nat) (arrayText : cstring) (i : nat)
      (out : list Test) :
  (length arrayText - i < fuel)%nat ->
  exists r, parse_loop fuel arrayText i out = Some r.
Proof.
  revert i out; induction fuel as [|fuel IH]; intros i out Hf.
  - exfalso. lia.
  - simpl. destruct (i <? length arrayText)%nat eqn:Ei; [|eauto].
    apply Nat.ltb_lt in Ei.
    destruct (find_chr arrayText "{" i) as [p|] eqn:Ep; [|eauto].
    apply find_chr_ge in Ep.
    destruct (scan_braces (skipn p arrayText) p 0) as [j|] eqn:Ej.
    + apply scan_braces_ge in Ej.
      destruct (parseObject _) as [[[|] t]|e]; [| |eauto]; apply IH; lia.
    + apply IH. lia.
Qed.

(** More fuel does not change a result. *)
Lemma parse_loop_fuel_mono (fuel fuel' : nat) (arrayText : cstring) (i : nat)
      (out : list Test) (r : vec_result) :
  parse_loop fuel arrayText i out = Some r ->
  (fuel <= fuel')%nat ->
  parse_loop fuel' arrayText i out = Some r.
Proof.
  revert fuel' i out; induction fuel as [|fuel IH]; intros fuel' i out H Hle.
  - discriminate.
  - destruct fuel' as [|fuel']; [lia|]. simpl in *.
    destruct (i <? length arrayText)%nat; [|exact H].
    destruct (find_chr arrayText "{" i) as [p|]; [|exact H].
    destruct (scan_braces (skipn p arrayText) p 0) as [j|].
    + destruct (parseObject _) as [[[|] t]|e]; [| |exact H]; apply IH; auto; lia.
    + apply IH; auto; lia.
Qed.

(** C10.  On every input text and every vector the array scanner ends: the
    [while] loop is left after at most [arrayText.size() + 1] iterations,
    by a normal return or by the exception of [std::stoi], and further fuel
    gives the same result.  Texts with a brace that is never closed are
    among them. *)
Theorem parseTestSuiteVector_terminates (arrayText : cstring) (out : list Test) :
  exists r,
    parseTestSuiteVector arrayText out = Some r /\
    (forall extra,
        parse_loop (S (length arrayText) + extra) arrayText 0 out = Some r) /\
    parseTestSuiteVector (str "[{id: {{ {x} ") out = Some (out, Returned tt).
Proof.
  destruct (parse_loop_terminates (S (length arrayText)) arrayText 0 out)
    as [r Hr]; [lia|].
  exists r. split; [exact Hr|]. split.
  - intros extra. apply (parse_loop_fuel_mono _ _ _ _ _ _ Hr). lia.
  - reflexivity.
Qed.

(** ** parseTestSuiteVector: records without an id *)

Lemma getString_missing (objText key : cstring) :
  find_str objText (key ++ str ":") 0 = None ->
  getString objText key = [].
Proof. unfold getString. now intros ->. Qed.

(** [parseObject] reports success exactly when the [id] it wrote is not
    empty, and the [id] is what [getString] found. *)
Lemma parseObject_accepts (objText : cstring) (ok : bool) (t : Test) :
  parseObject objText = Returned (ok, t) ->
  id t = getString objText (str "id") /\ ok = negb (empty (id t)).
Proof.
  unfold parseObject, bind.
  destruct (getInt objText (str "times")) as [n|e]; [|discriminate].
  intros H. injection H as <- <-. split; reflexivity.
Qed.

Lemma parse_loop_appends (fuel : nat) (arrayText : cstring) (i : nat)
      (out out' : list Test) (c : completion unit) :
  parse_loop fuel arrayText i out = Some (out', c) ->
  exists added,
    out' = out ++ added /\ Forall (fun t => id t <> []) added.
Proof.
  revert i out; induction fuel as [|fuel IH]; intros i out H.
  - discriminate.
  - simpl in H.
    assert (Stop : Some (out, Returned tt) = Some (out', c) ->
                   exists added, out' = out ++ added /\
                                 Forall (fun t => id t <> []) added).
    { intros E. injection E as <- _. exists []. now rewrite app_nil_r. }
    destruct (i <? length arrayText)%nat; [|auto].
    destruct (find_chr arrayText "{" i) as [p|]; [|auto].
    destruct (scan_braces (skipn p arrayText) p 0) as [j|]; [|eauto].
    destruct (parseObject _) as [[ok t]|e] eqn:Ep.
    + apply parseObject_accepts in Ep. destruct Ep as [_ Eok].
      destruct ok.
      * apply IH in H. destruct H as (added & -> & Hall).
        exists (t :: added). rewrite <- app_assoc. split; [reflexivity|].
        constructor; [|exact Hall].
        destruct (id t); [discriminate Eok | discriminate].
      * eauto.
    + injection H as <- _. exists []. now rewrite app_nil_r.
Qed.

Lemma spawned_tests (P : Test -> Prop) (tests : list Test) :
  Forall P tests -> Forall (fun ti => P (fst ti)) (spawned tests).
Proof.
  rewrite !Forall_forall. intros H [t i] Hin.
  unfold spawned in Hin. apply in_flat_map in Hin.
  destruct Hin as (t' & Ht' & Hin). apply in_map_iff in Hin.
  destruct Hin as (i' & E & _). injection E as <- _. simpl. auto.
Qed.

(** ** xferinfo_cb *)

(** C8.  The threshold is the constant 65536.  On a progress tick the
    callback returns non-zero exactly when [received] has reached it; in that
    case, and in no other, it sets [aborted_by_threshold]; nothing else of
    the [Result] changes.  The callback sees the [Result] only: no [Test]
    takes part in the comparison. *)
Theorem xferinfo_cb_threshold (res : Result) :
  OK_THRESHOLD_BYTES = 65536 /\
  (snd (xferinfo_cb res) <> 0 <-> 65536 <= received res) /\
  (65536 <= received res ->
   aborted_by_threshold (fst (xferinfo_cb res)) = true /\
   snd (xferinfo_cb res) = 1) /\
  (received res < 65536 -> xferinfo_cb res = (res, 0)) /\
  received (fst (xferinfo_cb res)) = received res /\
  r_id (fst (xferinfo_cb res)) = r_id res /\
  r_provider (fst (xferinfo_cb res)) = r_provider res /\
  http_code (fst (xferinfo_cb res)) = http_code res /\
  status (fst (xferinfo_cb res)) = status res /\
  detail (fst (xferinfo_cb res)) = detail res /\
  elapsed_ms (fst (xferinfo_cb res)) = elapsed_ms res.
Proof.
  unfold xferinfo_cb.
  change OK_THRESHOLD_BYTES with 65536.
  destruct (65536 <=? received res) eqn:E.
  - apply Z.leb_le in E. simpl.
    repeat split; try reflexivity; try lia; auto.
  - apply Z.leb_gt in E. simpl.
    repeat split; try reflexivity; try lia; auto.
Qed.

Lemma xferinfo_cb_threshold_witness :
  aborted_by_threshold
    (fst (xferinfo_cb (mkResult (str "A") [] 200 65536 [] [] 0%Q false))) = true /\
  snd (xferinfo_cb (mkResult (str "A") [] 200 65536 [] [] 0%Q false)) = 1.
Proof.
  destruct (xferinfo_cb_threshold (mkResult (str "A") [] 200 65536 [] [] 0%Q false))
    as (_ & _ & H & _).
  apply H. simpl. lia.
Defined.

(** ** The id of a Result *)

Lemma repetitions_spec (t : Test) (i : Z) :
  In i (repetitions t) <-> 0 <= i < times t.
Proof.
  unfold repetitions. rewrite in_map_iff. split.
  - intros (n & <- & Hin). apply in_seq in Hin. lia.
  - intros H. exists (Z.to_nat i). split; [lia|]. apply in_seq. lia.
Qed.

(** C9.  For a [Test] with [times > 1] the threads started are those of the
    indices 0 .. times-1, and the [Result] of index [i] carries the id of the
    [Test] followed by [@] and the decimal index; for [times <= 1] the id is
    the one of the [Test]; a [Test] A with [times = 3] gives A@0, A@1, A@2. *)
Theorem result_id_suffix (t : Test) :
  (1 < times t ->
   result_ids [t]
   = map (fun i => id t ++ str "@" ++ to_string i) (repetitions t) /\
   (forall i, In i (repetitions t) <-> 0 <= i < times t) /\
   forall i, r_id (worker_init t i) = id t ++ str "@" ++ to_string i)
  /\ (times t <= 1 -> forall i, r_id (worker_init t i) = id t)
  /\ result_ids [mkTest (str "A") [] [] 3] = [str "A@0"; str "A@1"; str "A@2"].
Proof.
  split; [|split].
  - intros H. split; [|split].
    + unfold result_ids, spawned. simpl. rewrite app_nil_r, map_map.
      apply map_ext. intros i. simpl.
      destruct (1 <? times t) eqn:E; [reflexivity|]. apply Z.ltb_ge in E. lia.
    + apply repetitions_spec.
    + intros i. simpl.
      destruct (1 <? times t) eqn:E; [reflexivity|]. apply Z.ltb_ge in E. lia.
  - intros H i. simpl.
    destruct (1 <? times t) eqn:E; [|reflexivity]. apply Z.ltb_lt in E. lia.
  - reflexivity.
Qed.

Lemma result_id_suffix_witness :
  result_ids [mkTest (str "US.DO-01") [] [] 2] = [str "US.DO-01@0"; str "US.DO-01@1"]
  /\ r_id (worker_init (mkTest (str "US.CF-01") [] [] 1) 0) = str "US.CF-01".
Proof.
  split.
  - destruct (result_id_suffix (mkTest (str "US.DO-01") [] [] 2)) as ((E & _) & _).
    + simpl. lia.
    + rewrite E. reflexivity.
  - destruct (result_id_suffix (mkTest (str "US.CF-01") [] [] 1)) as (_ & H & _).
    apply H. simpl. lia.
Defined.

(** ** The classification switch *)

Lemma status_text_inj (d1 d2 : Diagnosis) :
  status_text d1 = status_text d2 -> d1 = d2.
Proof. destruct d1, d2; intros H; try reflexivity; discriminate H. Qed.

Lemma diagnosis_of_status_text (d : Diagnosis) :
  diagnosis_of_status (status_text d) = Some d.
Proof. destruct d; reflexivity. Qed.

(** The status written by the switch, case by case. *)
Lemma worker_classify_status (curl_easy_strerror : Z -> cstring)
      (rc : Z) (res : Result) :
  status (worker_classify curl_easy_strerror rc res)
  = status_text
      match outcome_of rc with
      | Success =>
          if OK_THRESHOLD_BYTES <=? received res then NotDetected
          else PossiblyDetected
      | TimedOut => if received res =? 0 then DetectedProbable else Detected
      | AbortedByCallback =>
          if aborted_by_threshold res then NotDetected else Detected
      | OtherError => FailedToComplete
      end.
Proof.
  unfold worker_classify, outcome_of.
  destruct (rc =? CURLE_OK).
  { destruct (OK_THRESHOLD_BYTES <=? received res); reflexivity. }
  destruct (rc =? CURLE_OPERATION_TIMEDOUT).
  { destruct (received res =? 0); reflexivity. }
  destruct (rc =? CURLE_ABORTED_BY_CALLBACK).
  { destruct (aborted_by_threshold res); reflexivity. }
  reflexivity.
Qed.

(** The detail written by the switch depends on the result code, on
    [received] and on the latch only. *)
Lemma worker_classify_detail (curl_easy_strerror : Z -> cstring)
      (rc : Z) (res res' : Result) :
  (OK_THRESHOLD_BYTES <=? received res') = (OK_THRESHOLD_BYTES <=? received res) ->
  (received res' =? 0) = (received res =? 0) ->
  aborted_by_threshold res' = aborted_by_threshold res ->
  detail (worker_classify curl_easy_strerror rc res') = detail (worker_classify curl_easy_strerror rc res).
Proof.
  intros Ht Hz Ha. unfold worker_classify.
  rewrite Ht, Hz, Ha.
  destruct (rc =? CURLE_OK).
  { destruct (OK_THRESHOLD_BYTES <=? received res); reflexivity. }
  destruct (rc =? CURLE_OPERATION_TIMEDOUT).
  { destruct (received res =? 0); reflexivity. }
  destruct (rc =? CURLE_ABORTED_BY_CALLBACK).
  { destruct (aborted_by_threshold res); reflexivity. }
  reflexivity.
Qed.

(** C4.  The status and the detail that the switch writes are determined
    by the transfer outcome, by how [received] compares with the threshold
    and with zero, and by [aborted_by_threshold]: two runs that agree on
    these get the same status, and the same detail when the result code is
    the same.  Row by row: success with at least 65536 bytes is reported
    as Not detected, success with fewer as Possibly detected; a timeout
    with no byte as Detected (probable), with some bytes as Detected; an
    abort by the callback as Not detected when the latch is set and as
    Detected when it is not; every other result code as Failed to
    complete. *)
Theorem worker_classify_decision_table (curl_easy_strerror : Z -> cstring)
    (rc : Z) (res : Result) :
  (forall rc' res',
      outcome_of rc' = outcome_of rc ->
      (OK_THRESHOLD_BYTES <=? received res')
      = (OK_THRESHOLD_BYTES <=? received res) ->
      (received res' =? 0) = (received res =? 0) ->
      aborted_by_threshold res' = aborted_by_threshold res ->
      status (worker_classify curl_easy_strerror rc' res') = status (worker_classify curl_easy_strerror rc res) /\
      (rc' = rc -> detail (worker_classify curl_easy_strerror rc' res') = detail (worker_classify curl_easy_strerror rc res)))
  /\ (rc = CURLE_OK -> 65536 <= received res ->
      diagnosis_of_status (status (worker_classify curl_easy_strerror rc res)) = Some NotDetected)
  /\ (rc = CURLE_OK -> received res < 65536 ->
      diagnosis_of_status (status (worker_classify curl_easy_strerror rc res)) = Some PossiblyDetected)
  /\ (rc = CURLE_OPERATION_TIMEDOUT -> received res = 0 ->
      diagnosis_of_status (status (worker_classify curl_easy_strerror rc res)) = Some DetectedProbable)
  /\ (rc = CURLE_OPERATION_TIMEDOUT -> 0 < received res ->
      diagnosis_of_status (status (worker_classify curl_easy_strerror rc res)) = Some Detected)
  /\ (rc = CURLE_ABORTED_BY_CALLBACK -> aborted_by_threshold res = true ->
      diagnosis_of_status (status (worker_classify curl_easy_strerror rc res)) = Some NotDetected)
  /\ (rc = CURLE_ABORTED_BY_CALLBACK -> aborted_by_threshold res = false ->
      diagnosis_of_status (status (worker_classify curl_easy_strerror rc res)) = Some Detected)
  /\ (rc <> CURLE_OK -> rc <> CURLE_OPERATION_TIMEDOUT ->
      rc <> CURLE_ABORTED_BY_CALLBACK ->
      diagnosis_of_status (status (worker_classify curl_easy_strerror rc res)) = Some FailedToComplete).
Proof.
  split.
  { intros rc' res' Ho Ht Hz Ha. split.
    - rewrite !worker_classify_status, Ho, Ht, Hz, Ha. reflexivity.
    - intros ->. now apply worker_classify_detail. }
  rewrite worker_classify_status. unfold outcome_of.
  change OK_THRESHOLD_BYTES with 65536.
  repeat split.
  - intros -> H. apply Z.leb_le in H. simpl. rewrite H. reflexivity.
  - intros -> H. apply Z.leb_gt in H. simpl. rewrite H. reflexivity.
  - intros -> ->. reflexivity.
  - intros -> H. simpl.
    destruct (received res =? 0) eqn:E; [apply Z.eqb_eq in E; lia|reflexivity].
  - intros -> ->. reflexivity.
  - intros -> ->. reflexivity.
  - intros H1 H2 H3.
    apply Z.eqb_neq in H1, H2, H3. rewrite H1, H2, H3. reflexivity.
Qed.

Lemma worker_classify_decision_table_witness :
  diagnosis_of_status
    (status (worker_classify (fun _ => str "n/a") CURLE_OK
               (mkResult (str "A") [] 200 70000 [] [] 0%Q false)))
  = Some NotDetected
  /\ diagnosis_of_status
       (status (worker_classify (fun _ => str "n/a") CURLE_OPERATION_TIMEDOUT
                  (mkResult (str "A") [] 0 0 [] [] 0%Q false)))
     = Some DetectedProbable
  /\ diagnosis_of_status
       (status (worker_classify (fun _ => str "n/a") CURLE_ABORTED_BY_CALLBACK
                  (mkResult (str "A") [] 200 100 [] [] 0%Q false)))
     = Some Detected.
Proof.
  split; [|split].
  - destruct (worker_classify_decision_table (fun _ => str "n/a") CURLE_OK
                (mkResult (str "A") [] 200 70000 [] [] 0%Q false))
      as (_ & H & _).
    apply H; simpl; [reflexivity | lia].
  - destruct (worker_classify_decision_table (fun _ => str "n/a")
                CURLE_OPERATION_TIMEDOUT
                (mkResult (str "A") [] 0 0 [] [] 0%Q false))
      as (_ & _ & _ & H & _).
    apply H; reflexivity.
  - destruct (worker_classify_decision_table (fun _ => str "n/a")
                CURLE_ABORTED_BY_CALLBACK
                (mkResult (str "A") [] 200 100 [] [] 0%Q false))
      as (_ & _ & _ & _ & _ & _ & H & _).
    apply H; reflexivity.
Defined.

(** * Further properties of the code *)

(** ** getInt and std::stoi on a run of digits *)

Lemma advance_while_isspace (rest : cstring) (p : nat) :
  exists k,
    advance_while isspace rest p = (p + k)%nat /\
    skipn k rest = skip_spaces rest.
Proof.
  revert p; induction rest as [|c rest IH]; intros p; simpl.
  - exists 0%nat. split; [lia | reflexivity].
  - destruct (isspace c).
    + destruct (IH (S p)) as (k & E & Hs).
      exists (S k). split; [lia | exact Hs].
    + exists 0%nat. split; [lia | reflexivity].
Qed.

Lemma advance_while_isdigit (rest : cstring) (p : nat) :
  exists k,
    advance_while isdigit rest p = (p + k)%nat /\
    firstn k rest = take_digits rest.
Proof.
  revert p; induction rest as [|c rest IH]; intros p; simpl.
  - exists 0%nat. split; [lia | reflexivity].
  - destruct (isdigit c).
    + destruct (IH (S p)) as (k & E & Hs).
      exists (S k). split; [lia | simpl; now rewrite Hs].
    + exists 0%nat. split; [lia | reflexivity].
Qed.

Lemma take_digits_all (s : cstring) : Forall (fun c => isdigit c = true) (take_digits s).
Proof.
  induction s as [|c s IH]; simpl; [constructor|].
  destruct (isdigit c) eqn:E; constructor; assumption.
Qed.

Lemma take_digits_id (ds : cstring) :
  Forall (fun c => isdigit c = true) ds -> take_digits ds = ds.
Proof.
  induction 1 as [|c ds Hc _ IH]; simpl; [reflexivity|].
  now rewrite Hc, IH.
Qed.

Lemma isdigit_range (c : ascii) :
  isdigit c = true -> 0 <= digit_value c <= 9.
Proof.
  unfold isdigit, digit_value. rewrite andb_true_iff, !Nat.leb_le. lia.
Qed.

Lemma isdigit_plain (c : ascii) :
  isdigit c = true ->
  isspace c = false /\ Ascii.eqb c "-" = false /\ Ascii.eqb c "+" = false.
Proof.
  unfold isdigit, isspace. rewrite andb_true_iff, !Nat.leb_le. intros [H1 H2].
  repeat split.
  - apply orb_false_iff. split.
    + apply Nat.eqb_neq. lia.
    + apply andb_false_iff. right. apply Nat.leb_gt. lia.
  - apply Ascii.eqb_neq. intros ->.
    change (nat_of_ascii "-") with 45%nat in H1. lia.
  - apply Ascii.eqb_neq. intros ->.
    change (nat_of_ascii "+") with 43%nat in H1. lia.
Qed.

Lemma fold_digits_nonneg (ds : cstring) (acc : Z) :
  Forall (fun c => isdigit c = true) ds -> 0 <= acc ->
  0 <= fold_left (fun a c => a * 10 + digit_value c) ds acc.
Proof.
  intros H; revert acc; induction H as [|c ds Hc _ IH]; intros acc Ha; simpl.
  - exact Ha.
  - apply IH. apply isdigit_range in Hc. lia.
Qed.

(** [std::stoi] on a text made of digits only. *)
Lemma stoi_digits (ds : cstring) :
  Forall (fun c => isdigit c = true) ds ->
  stoi ds =
  if empty ds then Threw invalid_argument
  else if INT_MAX <? digits_value ds then Threw out_of_range
       else Returned (digits_value ds).
Proof.
  intros H. unfold stoi.
  destruct H as [|c ds Hc Hds]; [reflexivity|].
  pose proof (isdigit_plain c Hc) as (Hs & Hm & Hp).
  pose proof (fold_digits_nonneg (c :: ds) 0 (Forall_cons _ Hc Hds) ltac:(lia)) as Hv.
  fold (digits_value (c :: ds)) in Hv.
  cbn [skip_spaces]. rewrite Hs, Hm, Hp.
  rewrite (take_digits_id (c :: ds)) by (constructor; assumption).
  cbn [empty].
  replace (digits_value (c :: ds) <? INT_MIN) with false
    by (symmetry; apply Z.ltb_ge; unfold INT_MIN; lia).
  reflexivity.
Qed.

(** The run of digits that [getInt] hands to [std::stoi]. *)
Lemma getInt_reads_digits (objText key : cstring) (p : nat) :
  find_str objText (key ++ str ":") 0 = Some p ->
  getInt objText key =
  let ds := take_digits
              (skip_spaces (skipn (p + length (key ++ str ":")) objText)) in
  if empty ds then Threw invalid_argument
  else if INT_MAX <? digits_value ds then Threw out_of_range
       else Returned (digits_value ds).
Proof.
  intros Hf. unfold getInt. rewrite Hf. cbv zeta.
  set (p0 := (p + length (key ++ str ":"))%nat).
  destruct (advance_while_isspace (skipn p0 objText) p0) as (k1 & E1 & S1).
  rewrite E1.
  assert (Hs : skipn (p0 + k1) objText = skip_spaces (skipn p0 objText)).
  { rewrite <- S1, skipn_skipn. f_equal. lia. }
  rewrite Hs.
  destruct (advance_while_isdigit (skip_spaces (skipn p0 objText)) (p0 + k1))
    as (k2 & E2 & S2).
  rewrite E2. unfold substr. rewrite Hs.
  replace (p0 + k1 + k2 - (p0 + k1))%nat with k2 by lia.
  rewrite S2. apply stoi_digits, take_digits_all.
Qed.

(** X1.  When the key is present, [getInt] reads the run of digits that
    follows the colon and the white space after it: it throws
    [std::invalid_argument] when the run is empty, [std::out_of_range] when
    its value exceeds [INT_MAX], and returns the value otherwise. *)
Theorem getInt_digit_run (objText key : cstring) (p : nat) :
  find_str objText (key ++ str ":") 0 = Some p ->
  getInt objText key =
  let ds := take_digits
              (skip_spaces (skipn (p + length (key ++ str ":")) objText)) in
  if empty ds then Threw invalid_argument
  else if INT_MAX <? digits_value ds then Threw out_of_range
       else Returned (digits_value ds).
Proof. apply getInt_reads_digits. Qed.

Lemma getInt_digit_run_witness :
  getInt (str "{id: 7, times:   42 }") (str "times") = Returned 42.
Proof.
  rewrite (getInt_digit_run (str "{id: 7, times:   42 }") (str "times") 8);
    reflexivity.
Defined.

(** X2.  A record that [parseObject] produces has a [times] between 0 and
    [INT_MAX]: the parser never yields a negative repetition count. *)
Theorem parseObject_times_range (objText : cstring) (ok : bool) (t : Test) :
  parseObject objText = Returned (ok, t) ->
  0 <= times t <= INT_MAX.
Proof.
  unfold parseObject, bind.
  destruct (getInt objText (str "times")) as [n|e] eqn:E; [|discriminate].
  intros H. injection H as _ <-. simpl.
  destruct (find_str objText (str "times" ++ str ":") 0) as [p|] eqn:Ef.
  - rewrite (getInt_reads_digits _ _ _ Ef) in E. cbv zeta in E.
    set (ds := take_digits _) in E.
    pose proof (fold_digits_nonneg ds 0 (take_digits_all _) ltac:(lia)) as Hv.
    fold (digits_value ds) in Hv.
    destruct (empty ds); [discriminate|].
    destruct (INT_MAX <? digits_value ds) eqn:Em; [discriminate|].
    injection E as <-. apply Z.ltb_ge in Em. lia.
  - rewrite getInt_missing in E by exact Ef. injection E as <-.
    unfold INT_MAX. lia.
Qed.

Lemma parseObject_times_range_witness :
  0 <= 3 <= INT_MAX.
Proof.
  apply (parseObject_times_range
           (str "{id:" ++ q "A" ++ str ", times: 3}") true
           (mkTest (str "A") [] [] 3)).
  reflexivity.
Defined.

(** ** getString *)

Lemma skipn_app_length {A} (l r : list A) : skipn (length l) (l ++ r) = r.
Proof. rewrite skipn_app, skipn_all, Nat.sub_diag. reflexivity. Qed.

Lemma firstn_app_length {A} (l r : list A) : firstn (length l) (l ++ r) = l.
Proof.
  rewrite firstn_app, firstn_all, Nat.sub_diag. simpl. apply app_nil_r.
Qed.

(** The text between a position and the next occurrence of a character does
    not contain the character. *)
Lemma find_chr_between (s : cstring) (c : ascii) (pos k : nat) :
  find_chr s c pos = Some k -> ~ In c (substr s pos (k - pos)).
Proof.
  intros H. apply find_chr_spec in H.
  destruct H as (pre & tail & E & -> & Hn & _).
  unfold substr. rewrite E.
  replace (pos + length pre - pos)%nat with (length pre) by lia.
  now rewrite firstn_app_length.
Qed.

Lemma find_chr_from_app (c : ascii) (l r : cstring) (i : nat) :
  ~ In c l -> find_chr_from c (l ++ c :: r) i = Some (i + length l)%nat.
Proof.
  revert i; induction l as [|b l IH]; intros i Hn; simpl.
  - rewrite Ascii.eqb_refl. f_equal. lia.
  - destruct (Ascii.eqb b c) eqn:E.
    + apply Ascii.eqb_eq in E. exfalso. apply Hn. now left.
    + rewrite IH by (intros H; apply Hn; now right). f_equal. lia.
Qed.

(** X3.  [getString] never returns a text that contains a double quote, and
    it returns the empty text when the key does not occur; so the [id],
    [provider] and [url] of a record that [parseObject] produces are free of
    double quotes. *)
Theorem getString_no_quote (objText key : cstring) :
  ~ In dquote (getString objText key) /\
  (find_str objText (key ++ str ":") 0 = None -> getString objText key = []) /\
  (forall ok t,
      parseObject objText = Returned (ok, t) ->
      ~ In dquote (id t) /\ ~ In dquote (provider t) /\ ~ In dquote (url t)).
Proof.
  assert (G : forall k, ~ In dquote (getString objText k)).
  { intros k. unfold getString.
    destruct (find_str objText (k ++ str ":") 0) as [p|]; [|auto].
    destruct (find_chr objText dquote p) as [p1|]; [|auto].
    destruct (find_chr objText dquote (p1 + 1)) as [p2|] eqn:E; [|auto].
    now apply find_chr_between in E. }
  split; [apply G|]. split; [apply getString_missing|].
  intros ok t. unfold parseObject, bind.
  destruct (getInt objText (str "times")) as [n|e]; [|discriminate].
  intros H. injection H as _ <-. simpl. repeat split; apply G.
Qed.

Lemma getString_no_quote_witness :
  getString (str "{provider: 1}") (str "id") = [].
Proof.
  destruct (getString_no_quote (str "{provider: 1}") (str "id")) as (_ & H & _).
  apply H. reflexivity.
Defined.

(** The value between the first two double quotes after the key. *)
Lemma getString_value (objText key pre mid v post : cstring) :
  objText = pre ++ (key ++ str ":" ++ mid) ++ dquote :: v ++ dquote :: post ->
  find_str objText (key ++ str ":") 0 = Some (length pre) ->
  ~ In dquote (key ++ str ":" ++ mid) ->
  ~ In dquote v ->
  getString objText key = v.
Proof.
  intros E Hf Hk Hv. unfold getString. rewrite Hf.
  set (km := key ++ str ":" ++ mid) in *.
  assert (F1 : find_chr objText dquote (length pre)
               = Some (length pre + length km)%nat).
  { unfold find_chr. rewrite E, skipn_app_length.
    now apply find_chr_from_app. }
  rewrite F1.
  assert (S2 : skipn (length pre + length km + 1) objText = v ++ dquote :: post).
  { rewrite E, app_assoc, <- length_app.
    replace (length (pre ++ km) + 1)%nat with (length ((pre ++ km) ++ [dquote]))
      by (rewrite length_app; reflexivity).
    change (dquote :: v ++ dquote :: post)
      with ([dquote] ++ v ++ dquote :: post).
    rewrite app_assoc. apply skipn_app_length. }
  assert (F2 : find_chr objText dquote (length pre + length km + 1)
               = Some (length pre + length km + 1 + length v)%nat).
  { unfold find_chr. rewrite S2. now apply find_chr_from_app. }
  rewrite F2. unfold substr. rewrite S2.
  replace (length pre + length km + 1 + length v
           - (length pre + length km + 1))%nat with (length v) by lia.
  apply firstn_app_length.
Qed.

(** X4.  When the first occurrence of [key:] in the text is followed, after
    text without double quotes, by a quoted value that has no double quote
    inside, [getString] returns exactly that value. *)
Theorem getString_quoted_value (objText key pre mid v post : cstring) :
  objText = pre ++ (key ++ str ":" ++ mid) ++ dquote :: v ++ dquote :: post ->
  find_str objText (key ++ str ":") 0 = Some (length pre) ->
  ~ In dquote (key ++ str ":" ++ mid) ->
  ~ In dquote v ->
  getString objText key = v.
Proof. apply getString_value. Qed.

Lemma getString_quoted_value_witness :
  getString (str "{id: " ++ q "US.CF-01" ++ str ", times: 1}") (str "id")
  = str "US.CF-01".
Proof.
  apply (getString_quoted_value _ (str "id") (str "{") (str " ")
           (str "US.CF-01") (str ", times: 1}")).
  - reflexivity.
  - reflexivity.
  - intros H. vm_compute in H. intuition discriminate.
  - intros H. vm_compute in H. intuition discriminate.
Defined.

(** ** parseTestSuiteVector: where the records come from *)

Lemma scan_braces_some (rest : cstring) (j : nat) (depth : Z) (k : nat) :
  scan_braces rest j depth = Some k ->
  exists body tail,
    rest = body ++ "}"%char :: tail /\ k = (j + length body)%nat.
Proof.
  revert j depth; induction rest as [|c rest IH]; intros j depth; simpl.
  - discriminate.
  - assert (Step : forall d, scan_braces rest (S j) d = Some k ->
                     exists body tail,
                       c :: rest = body ++ "}"%char :: tail /\
                       k = (j + length body)%nat).
    { intros d H. apply IH in H. destruct H as (body & tail & -> & ->).
      exists (c :: body), tail. split; [reflexivity | simpl; lia]. }
    destruct (Ascii.eqb c "{"); [apply Step|].
    destruct (Ascii.eqb c "}") eqn:Ec; [|apply Step].
    destruct (wrap_int (depth - 1) =? 0); [|apply Step].
    intros H. injection H as <-. apply Ascii.eqb_eq in Ec. subst c.
    exists [], rest. split; [reflexivity | simpl; lia].
Qed.

Lemma scan_braces_none (rest : cstring) (j : nat) (depth : Z) :
  ~ In "}"%char rest -> scan_braces rest j depth = None.
Proof.
  revert j depth; induction rest as [|c rest IH]; intros j depth Hn; simpl.
  - reflexivity.
  - assert (Hr : ~ In "}"%char rest) by (intros H; apply Hn; now right).
    destruct (Ascii.eqb c "{"); [now apply IH|].
    destruct (Ascii.eqb c "}") eqn:Ec; [|now apply IH].
    apply Ascii.eqb_eq in Ec. exfalso. apply Hn. now left.
Qed.

(** The piece of text handed to [parseObject]: it starts at an opening brace
    and ends at a closing one. *)
Lemma object_piece (arrayText : cstring) (i p j : nat) :
  find_chr arrayText "{"%char i = Some p ->
  scan_braces (skipn p arrayText) p 0 = Some j ->
  exists body,
    substr arrayText p (j - p + 1) = "{"%char :: body ++ ["}"%char] /\
    (p + (j - p + 1) <= length arrayText)%nat.
Proof.
  intros Hp Hj. apply find_chr_spec in Hp.
  destruct Hp as (pre & tl & _ & _ & _ & Es).
  apply scan_braces_some in Hj. destruct Hj as (body & tail & Eb & ->).
  rewrite Es in Eb. destruct body as [|b body]; [discriminate Eb|].
  injection Eb as <- ->.
  exists body. unfold substr. rewrite Es. split.
  - replace (p + length ("{"%char :: body) - p + 1)%nat
      with (length (("{"%char :: body) ++ ["}"%char]))
      by (rewrite length_app; simpl; lia).
    change ("{"%char :: body ++ "}"%char :: tail)
      with (("{"%char :: body) ++ ["}"%char] ++ tail).
    rewrite app_assoc. apply firstn_app_length.
  - assert (H : length (skipn p arrayText)
                = length ("{"%char :: body ++ "}"%char :: tail)) by now rewrite Es.
    rewrite length_skipn in H. simpl in H. rewrite length_app in H.
    simpl in *. lia.
Qed.

(** The records that a run of the loop appends, one property [P] at a time. *)
Lemma parse_loop_added (P : Test -> Prop) (arrayText : cstring) :
  (forall p n body t,
      (p + n <= length arrayText)%nat ->
      substr arrayText p n = "{"%char :: body ++ ["}"%char] ->
      parseObject (substr arrayText p n) = Returned (true, t) -> P t) ->
  forall fuel i out out' c,
    parse_loop fuel arrayText i out = Some (out', c) ->
    exists added, out' = out ++ added /\ Forall P added.
Proof.
  intros HP. induction fuel as [|fuel IH]; intros i out out' c H.
  - discriminate.
  - simpl in H.
    assert (Stop : forall c0, Some (out, c0) = Some (out', c) ->
                   exists added, out' = out ++ added /\ Forall P added).
    { intros c0 E. injection E as <- _. exists []. now rewrite app_nil_r. }
    destruct (i <? length arrayText)%nat; [|eauto].
    destruct (find_chr arrayText "{" i) as [p|] eqn:Ep; [|eauto].
    destruct (scan_braces (skipn p arrayText) p 0) as [j|] eqn:Ej; [|eauto].
    destruct (object_piece _ _ _ _ Ep Ej) as (body & Eo & Hlen).
    destruct (parseObject _) as [[[|] t]|e] eqn:Epo; [| |eauto].
    + apply IH in H. destruct H as (added & -> & Hall).
      exists (t :: added). rewrite <- app_assoc. split; [reflexivity|].
      constructor; [|exact Hall]. eapply HP; eauto.
    + eauto.
Qed.

(** X5.  Every record that [parseTestSuiteVector] appends is what
    [parseObject] accepted on a piece of the text that starts with an opening
    brace and ends with a closing brace; the records already in the vector
    are kept, in front. *)
Theorem parseTestSuiteVector_provenance (arrayText : cstring)
    (out out' : list Test) (c : completion unit) :
  parseTestSuiteVector arrayText out = Some (out', c) ->
  exists added,
    out' = out ++ added /\
    Forall (fun t =>
              exists p n body,
                (p + n <= length arrayText)%nat /\
                substr arrayText p n = "{"%char :: body ++ ["}"%char] /\
                parseObject (substr arrayText p n) = Returned (true, t))
           added.
Proof.
  intros H. eapply parse_loop_added; [|exact H].
  intros p n body t Hlen Es Hp. now exists p, n, body.
Qed.

Lemma parseTestSuiteVector_provenance_witness :
  exists added,
    [mkTest (str "A") [] [] 0; mkTest (str "B") [] [] 2]
    = [mkTest (str "A") [] [] 0] ++ added /\
    Forall (fun t =>
              exists p n body,
                (p + n <= length (str "[{id:" ++ q "B" ++ str ", times: 2}]"))%nat /\
                substr (str "[{id:" ++ q "B" ++ str ", times: 2}]") p n
                = "{"%char :: body ++ ["}"%char] /\
                parseObject (substr (str "[{id:" ++ q "B" ++ str ", times: 2}]") p n)
                = Returned (true, t))
           added.
Proof.
  apply (parseTestSuiteVector_provenance
           (str "[{id:" ++ q "B" ++ str ", times: 2}]")
           [mkTest (str "A") [] [] 0] _ (Returned tt)).
  reflexivity.
Defined.

(** ** Records without an id *)

(** A piece of text that [parseObject] accepts contains the key. *)
Lemma parseObject_accepted_has_id (objText : cstring) (t : Test) :
  parseObject objText = Returned (true, t) ->
  id t <> [] /\ exists pre post, objText = pre ++ str "id:" ++ post.
Proof.
  intros H. apply parseObject_accepts in H. destruct H as [Hid Hok].
  assert (Hne : id t <> []) by (destruct (id t); [discriminate Hok | discriminate]).
  split; [exact Hne|].
  destruct (find_str objText (str "id" ++ str ":") 0) as [p|] eqn:Ef.
  - apply find_str_some in Ef. destruct Ef as (pre & post & E & _).
    now exists pre, post.
  - exfalso. apply Hne. rewrite Hid. now apply getString_missing.
Qed.

(** C7.  A record is refused by [parseObject] when the lookup of its [id]
    gives the empty text; that is the case when the text [id:] does not
    occur in the record, and when it is followed by an empty quoted value;
    the [id] of the record written is what the lookup gave, and the record is
    accepted exactly when it is not empty.  Whatever [parseTestSuiteVector]
    appends to the vector has a non-empty [id] and was parsed from a piece of
    the text in which [id:] occurs; and when the list held no empty [id]
    before the loader ran, no thread that [main] starts afterwards is given a
    [Test] with an empty [id]. *)
Theorem empty_id_never_dispatched :
  (forall objText ok t,
      parseObject objText = Returned (ok, t) ->
      getString objText (str "id") = [] -> ok = false)
  /\ (forall arrayText out out' c,
         parseTestSuiteVector arrayText out = Some (out', c) ->
         exists added,
           out' = out ++ added /\ Forall (fun t => id t <> []) added)
  /\ (forall fetchHtml tests url tests' c,
         Forall (fun t => id t <> []) tests ->
         loadTestSuiteFromUrl fetchHtml tests url = Some (tests', c) ->
         Forall (fun t => id t <> []) tests' /\
         Forall (fun ti => id (fst ti) <> []) (spawned tests'))
  /\ (forall objText ok t,
         (forall pre post, objText <> pre ++ str "id:" ++ post) ->
         parseObject objText = Returned (ok, t) ->
         ok = false /\ id t = [])
  /\ (forall objText pre mid post ok t,
         objText = pre ++ (str "id" ++ str ":" ++ mid)
                       ++ dquote :: dquote :: post ->
         find_str objText (str "id:") 0 = Some (length pre) ->
         ~ In dquote mid ->
         parseObject objText = Returned (ok, t) ->
         ok = false /\ id t = [])
  /\ (forall objText pre mid v post ok t,
         objText = pre ++ (str "id" ++ str ":" ++ mid)
                       ++ dquote :: v ++ dquote :: post ->
         find_str objText (str "id:") 0 = Some (length pre) ->
         ~ In dquote mid -> ~ In dquote v ->
         parseObject objText = Returned (ok, t) ->
         id t = v /\ (ok = true <-> v <> []))
  /\ (forall arrayText out out' c,
         parseTestSuiteVector arrayText out = Some (out', c) ->
         exists added,
           out' = out ++ added /\
           Forall (fun t =>
                     id t <> [] /\
                     exists p n pre post,
                       substr arrayText p n = pre ++ str "id:" ++ post /\
                       parseObject (substr arrayText p n) = Returned (true, t))
                  added).
Proof.
  assert (Key : forall mid, ~ In dquote mid ->
                            ~ In dquote (str "id" ++ str ":" ++ mid)).
  { intros mid Hm H. simpl in H.
    destruct H as [H|[H|[H|H]]]; try discriminate H. now apply Hm. }
  split; [|split; [|split; [|split; [|split; [|split]]]]].
  - intros objText ok t H E. apply parseObject_accepts in H.
    destruct H as [Hid ->]. now rewrite Hid, E.
  - intros arrayText out out' c H.
    now apply parse_loop_appends in H.
  - intros fetchHtml tests url tests' c Hall H.
    assert (Forall (fun t => id t <> []) tests').
    { unfold loadTestSuiteFromUrl in H.
      destruct (fetchHtml url []) as [ok html].
      destruct (negb ok); [injection H as <- _; exact Hall|].
      destruct (empty _); [injection H as <- _; exact Hall|].
      apply parse_loop_appends in H. destruct H as (added & -> & Ha).
      exact Ha. }
    split; [assumption|].
    now apply (spawned_tests (fun t => id t <> [])).
  - intros objText ok t Hn H. apply parseObject_accepts in H.
    destruct H as [Hid ->].
    rewrite Hid, getString_missing by (now apply find_str_absent).
    split; reflexivity.
  - intros objText pre mid post ok t E Hf Hm H.
    apply parseObject_accepts in H. destruct H as [Hid ->].
    rewrite Hid.
    rewrite (getString_value objText (str "id") pre mid [] post E Hf (Key mid Hm))
      by (intros []).
    split; reflexivity.
  - intros objText pre mid v post ok t E Hf Hm Hv H.
    apply parseObject_accepts in H. destruct H as [Hid ->].
    rewrite Hid.
    rewrite (getString_value objText (str "id") pre mid v post E Hf (Key mid Hm) Hv).
    split; [reflexivity|].
    destruct v as [|a v]; simpl; split; intros H.
    + discriminate H.
    + exfalso. now apply H.
    + discriminate.
    + reflexivity.
  - intros arrayText out out' c H.
    eapply parse_loop_added; [|exact H].
    intros p n body t _ _ Hp.
    destruct (parseObject_accepted_has_id _ _ Hp) as (Hne & pre & post & E).
    split; [exact Hne|]. now exists p, n, pre, post.
Qed.

Lemma empty_id_never_dispatched_witness :
  (exists added,
      [mkTest (str "B") [] [] 2] = [] ++ added /\
      Forall (fun t => id t <> []) added)
  /\ false = false /\ @nil ascii = [].
Proof.
  destruct empty_id_never_dispatched as (_ & H & _ & Hmiss & _).
  split.
  - apply (H (str "[{id:" ++ [dquote; dquote] ++ str ", times: 4}, {url:" ++ q "u"
                  ++ str "}, {id:" ++ q "B" ++ str ", times: 2}]")
             [] [mkTest (str "B") [] [] 2] (Returned tt)).
    reflexivity.
  - apply (Hmiss (str "{provider:" ++ q "x" ++ str "}") false
                 (mkTest [] (str "x") [] 0)).
    + intros pre post E.
      assert (F : find_str (str "{provider:" ++ q "x" ++ str "}") (str "id:") 0
                  = None) by reflexivity.
      exact (find_str_none _ _ F pre post E).
    + reflexivity.
Defined.

(** ** parseTestSuiteVector: texts without objects *)

Lemma In_skipn {A} (x : A) (n : nat) (l : list A) : In x (skipn n l) -> In x l.
Proof.
  intros H. rewrite <- (firstn_skipn n l). apply in_or_app. now right.
Qed.

Lemma parse_loop_no_object (arrayText : cstring) :
  ~ In "{"%char arrayText \/ ~ In "}"%char arrayText ->
  forall fuel i out r,
    parse_loop fuel arrayText i out = Some r -> r = (out, Returned tt).
Proof.
  intros Hn. induction fuel as [|fuel IH]; intros i out r H.
  - discriminate.
  - simpl in H.
    destruct (i <? length arrayText)%nat; [|congruence].
    destruct (find_chr arrayText "{" i) as [p|] eqn:Ep; [|congruence].
    destruct Hn as [Hn|Hn].
    + exfalso. apply find_chr_spec in Ep.
      destruct Ep as (pre & tl & _ & _ & _ & Es).
      apply Hn, (In_skipn _ p). rewrite Es. now left.
    + rewrite scan_braces_none in H
        by (intros Hin; apply Hn; eapply In_skipn; exact Hin).
      now apply IH in H.
Qed.

(** X6.  A text without an opening brace, or without a closing brace,
    contains no object: [parseTestSuiteVector] returns normally and leaves
    the vector as it was.  The empty text is such a text. *)
Theorem parseTestSuiteVector_no_object (arrayText : cstring) (out : list Test) :
  ~ In "{"%char arrayText \/ ~ In "}"%char arrayText ->
  parseTestSuiteVector arrayText out = Some (out, Returned tt).
Proof.
  intros Hn.
  destruct (parse_loop_terminates (S (length arrayText)) arrayText 0 out)
    as [r Hr]; [lia|].
  unfold parseTestSuiteVector. rewrite Hr. f_equal.
  eapply parse_loop_no_object; eauto.
Qed.

Lemma parseTestSuiteVector_no_object_witness :
  parseTestSuiteVector (str "[1, 2, {{ 3") builtin_sample
  = Some (builtin_sample, Returned tt).
Proof.
  apply parseTestSuiteVector_no_object.
  right. intros H. vm_compute in H. intuition discriminate.
Defined.

(** ** Records without a times field *)

Lemma substr_occurs (s pat a b : cstring) (p n : nat) :
  substr s p n = a ++ pat ++ b ->
  exists pre post, s = pre ++ pat ++ post.
Proof.
  unfold substr. intros E.
  exists (firstn p s ++ a), (b ++ skipn n (skipn p s)).
  rewrite <- (firstn_skipn p s) at 1.
  rewrite <- (firstn_skipn n (skipn p s)) at 1.
  rewrite E, <- !app_assoc. reflexivity.
Qed.

Lemma find_str_substr_none (s pat : cstring) (p n : nat) :
  (forall pre post, s <> pre ++ pat ++ post) ->
  find_str (substr s p n) pat 0 = None.
Proof.
  intros Hn. apply find_str_absent. intros a b E.
  apply substr_occurs in E. destruct E as (pre & post & E).
  now apply Hn in E.
Qed.

Lemma spawned_times_zero (tests : list Test) :
  Forall (fun t => times t = 0) tests -> spawned tests = [].
Proof.
  induction 1 as [|t tests Ht _ IH]; [reflexivity|].
  unfold spawned in *. simpl. rewrite IH.
  unfold repetitions. rewrite Ht. reflexivity.
Qed.

Lemma parse_loop_no_times (arrayText : cstring) :
  (forall pre post, arrayText <> pre ++ str "times:" ++ post) ->
  forall fuel i out out' c,
    parse_loop fuel arrayText i out = Some (out', c) -> c = Returned tt.
Proof.
  intros Hn. induction fuel as [|fuel IH]; intros i out out' c H.
  - discriminate.
  - simpl in H.
    destruct (i <? length arrayText)%nat; [|congruence].
    destruct (find_chr arrayText "{" i) as [p|]; [|congruence].
    destruct (scan_braces (skipn p arrayText) p 0) as [j|]; [|eauto].
    unfold parseObject, bind in H.
    rewrite getInt_missing in H by now apply find_str_substr_none.
    destruct (negb _); eauto.
Qed.

(** X7.  When the text [times:] occurs nowhere in the array,
    [parseTestSuiteVector] returns normally, every record it appends has
    [times = 0], and [main] starts no thread for any of them: such a suite
    loads and then probes nothing. *)
Theorem suite_without_times_runs_nothing (arrayText : cstring)
    (out out' : list Test) (c : completion unit) :
  (forall pre post, arrayText <> pre ++ str "times:" ++ post) ->
  parseTestSuiteVector arrayText out = Some (out', c) ->
  c = Returned tt /\
  exists added,
    out' = out ++ added /\
    Forall (fun t => times t = 0) added /\
    spawned added = [].
Proof.
  intros Hn H. split.
  - eapply parse_loop_no_times; eauto.
  - destruct (parse_loop_added (fun t => times t = 0) arrayText) with
      (fuel := S (length arrayText)) (i := 0%nat) (out := out) (out' := out')
      (c := c) as (added & E & Hall); [|exact H|].
    + intros p n body t _ _ Hp.
      unfold parseObject, bind in Hp.
      rewrite getInt_missing in Hp by now apply find_str_substr_none.
      injection Hp as _ <-. reflexivity.
    + exists added. repeat split; auto. now apply spawned_times_zero.
Qed.

Lemma suite_without_times_runs_nothing_witness :
  exists added,
    [mkTest (str "A") [] (str "u") 0] = [] ++ added /\
    Forall (fun t => times t = 0) added /\
    spawned added = [].
Proof.
  destruct (suite_without_times_runs_nothing
              (str "[{id:" ++ q "A" ++ str ", url:" ++ q "u" ++ str "}]")
              [] [mkTest (str "A") [] (str "u") 0] (Returned tt)) as [_ H].
  - intros pre post E.
    assert (F : find_str (str "[{id:" ++ q "A" ++ str ", url:" ++ q "u" ++ str "}]")
                         (str "times:") 0 = None) by reflexivity.
    exact (find_str_none _ _ F pre post E).
  - reflexivity.
  - exact H.
Defined.

(** ** main: the threads started *)

(** X8.  [main] starts a thread for [(t, i)] exactly when [t] is in the list
    and [0 <= i < t.times]; their number is the sum of the positive [times];
    a [Test] with [times <= 0] gets none. *)
Theorem spawned_exactly (tests : list Test) :
  (forall t i, In (t, i) (spawned tests) <-> In t tests /\ 0 <= i < times t)
  /\ length (spawned tests)
     = list_sum (map (fun t => Z.to_nat (times t)) tests)
  /\ (forall t, times t <= 0 -> spawned [t] = []).
Proof.
  split; [|split].
  - intros t i. unfold spawned. rewrite in_flat_map. split.
    + intros (t' & Hin & H). apply in_map_iff in H.
      destruct H as (i' & E & Hi). injection E as -> ->.
      split; [exact Hin | now apply repetitions_spec].
    + intros [Hin Hi]. exists t. split; [exact Hin|].
      apply in_map_iff. exists i. split; [reflexivity | now apply repetitions_spec].
  - unfold spawned. induction tests as [|t tests IH]; [reflexivity|].
    simpl. rewrite length_app, IH. f_equal.
    unfold repetitions. now rewrite !length_map, length_seq.
  - intros t Ht. unfold spawned, repetitions. simpl.
    replace (Z.to_nat (times t)) with 0%nat by lia. reflexivity.
Qed.

(** ** The ids of the Results of one Test *)

Lemma to_string_inj (a b : Z) : to_string a = to_string b -> a = b.
Proof.
  unfold to_string, str. intros H.
  apply (f_equal string_of_list_ascii) in H.
  rewrite !string_of_list_ascii_of_string in H.
  apply (f_equal NilZero.int_of_string) in H.
  assert (N : forall z, NilZero.int_of_string (NilZero.string_of_int (Z.to_int z))
                        = Some (Z.to_int z)).
  { intros z. apply NilZero.isi; destruct z; simpl; try discriminate;
      intros E; injection E; apply Unsigned.to_uint_nonnil. }
  rewrite !N in H. injection H as H. now apply DecimalZ.to_int_inj.
Qed.

Lemma NoDup_map_injective {A B} (f : A -> B) (l : list A) :
  (forall x y, f x = f y -> x = y) -> NoDup l -> NoDup (map f l).
Proof.
  intros Hf. induction 1 as [|x l Hx _ IH]; simpl; constructor; auto.
  intros Hin. apply in_map_iff in Hin. destruct Hin as (y & E & Hy).
  apply Hf in E. now subst y.
Qed.

Lemma repetitions_NoDup (t : Test) : NoDup (repetitions t).
Proof.
  unfold repetitions. apply NoDup_map_injective.
  - intros x y. lia.
  - apply seq_NoDup.
Qed.

(** X9.  The [Result]s of the repetitions of one [Test] have pairwise
    distinct ids, and there are as many as repetitions. *)
Theorem result_ids_distinct (t : Test) :
  NoDup (result_ids [t]) /\
  length (result_ids [t]) = Z.to_nat (times t).
Proof.
  assert (E : result_ids [t]
              = map (fun i => r_id (worker_init t i)) (repetitions t)).
  { unfold result_ids, spawned. simpl. now rewrite app_nil_r, map_map. }
  rewrite E. split.
  - destruct (1 <? times t) eqn:Et.
    + erewrite map_ext.
      * apply (NoDup_map_injective
                 (fun i => id t ++ str "@" ++ to_string i)).
        -- intros x y H. apply app_inv_head in H. apply app_inv_head in H.
           now apply to_string_inj.
        -- apply repetitions_NoDup.
      * intros i. simpl. now rewrite Et.
    + apply Z.ltb_ge in Et. unfold repetitions.
      destruct (Z.to_nat (times t)) as [|[|n]] eqn:En; [constructor| |lia].
      simpl. constructor; [intros []|constructor].
  - unfold repetitions. now rewrite !length_map, length_seq.
Qed.

Lemma spawned_exactly_witness :
  spawned [mkTest (str "A") [] [] (-1)] = [].
Proof.
  destruct (spawned_exactly [mkTest (str "A") [] [] (-1)]) as (_ & _ & H).
  apply H. simpl. lia.
Defined.

(** ** The callbacks during a transfer *)

Lemma bytes_of_app (l1 l2 : list curl_event) :
  bytes_of (l1 ++ l2) = bytes_of l1 + bytes_of l2.
Proof. induction l1 as [|e l1 IH]; simpl; lia. Qed.

Lemma event_bytes_nonneg (e : curl_event) : valid_event e -> 0 <= event_bytes e.
Proof. destruct e; simpl; [nia | lia]. Qed.

Lemma bytes_of_nonneg (l : list curl_event) :
  Forall valid_event l -> 0 <= bytes_of l.
Proof.
  induction 1 as [|e l He _ IH]; simpl; [lia|].
  apply event_bytes_nonneg in He. lia.
Qed.

Lemma run_callbacks_snoc (l : list curl_event) (e : curl_event) (res : Result) :
  run_callbacks (l ++ [e]) res = on_event (run_callbacks l res) e.
Proof. unfold run_callbacks. now rewrite fold_left_app. Qed.

Lemma snoc_progress_split (l : list curl_event) (e : curl_event)
      (pre post : list curl_event) :
  l ++ [e] = pre ++ ev_progress :: post ->
  (post = [] /\ pre = l /\ e = ev_progress) \/
  (exists post', post = post' ++ [e] /\ l = pre ++ ev_progress :: post').
Proof.
  intros E. destruct (exists_last (l := ev_progress :: post)) as (m & x & Em);
    [discriminate|].
  rewrite Em, app_assoc in E. apply app_inj_tail in E. destruct E as [El <-].
  destruct post as [|y post].
  - left. destruct m as [|z m]; [|destruct m; discriminate Em].
    injection Em as <-. rewrite app_nil_r in El. auto.
  - right. destruct (exists_last (l := y :: post)) as (post' & x' & Ep);
      [discriminate|].
    rewrite Ep in Em. change (ev_progress :: post' ++ [x'])
      with ((ev_progress :: post') ++ [x']) in Em.
    apply app_inj_tail in Em. destruct Em as [<- <-].
    exists post'. split; [exact Ep | exact El].
Qed.

(** The state of the [Result] after any sequence of callbacks. *)
Lemma run_callbacks_state (t : Test) (idx : Z) (events : list curl_event) :
  Forall valid_event events ->
  bytes_of events < 2 ^ 64 ->
  let res := run_callbacks events (worker_init t idx) in
  received res = bytes_of events /\
  (aborted_by_threshold res = true <->
   exists pre post,
     events = pre ++ ev_progress :: post /\ 65536 <= bytes_of pre) /\
  r_id res = r_id (worker_init t idx) /\
  r_provider res = provider t /\
  status res = [] /\ detail res = [].
Proof.
  cbv zeta. induction events as [|e l IH] using rev_ind; intros Hv Hb.
  - simpl. repeat split; auto.
    + discriminate.
    + intros (pre & post & E & _). destruct pre; discriminate E.
  - apply Forall_app in Hv. destruct Hv as [Hl He].
    apply Forall_inv in He.
    rewrite bytes_of_app in Hb. simpl in Hb.
    pose proof (bytes_of_nonneg l Hl) as Hl0.
    pose proof (event_bytes_nonneg e He) as He0.
    destruct (IH Hl ltac:(lia)) as (Hr & Ha & Hid & Hp & Hs & Hd).
    rewrite run_callbacks_snoc, bytes_of_app. simpl bytes_of.
    set (res := run_callbacks l (worker_init t idx)) in *.
    destruct e as [size nmemb|]; simpl in *.
    + rewrite (wrap_size_id (size * nmemb)) by lia.
      rewrite wrap_size_id by lia.
      repeat split; auto; try lia.
      * intros H. apply Ha in H. destruct H as (pre & post & -> & Hpre).
        exists pre, (post ++ [ev_write size nmemb]).
        split; [now rewrite <- app_assoc | exact Hpre].
      * intros (pre & post & E & Hpre).
        apply snoc_progress_split in E.
        destruct E as [(_ & _ & E) | (post' & _ & ->)]; [discriminate|].
        apply Ha. now exists pre, post'.
    + unfold xferinfo_cb. change OK_THRESHOLD_BYTES with 65536.
      destruct (65536 <=? received res) eqn:Et; simpl.
      * apply Z.leb_le in Et. repeat split; auto; try lia.
        intros _. exists l, []. split; [reflexivity | lia].
      * apply Z.leb_gt in Et. repeat split; auto; try lia.
        -- intros H. apply Ha in H. destruct H as (pre & post & -> & Hpre).
           exists pre, (post ++ [ev_progress]).
           split; [now rewrite <- app_assoc | exact Hpre].
        -- intros (pre & post & E & Hpre).
           apply snoc_progress_split in E.
           destruct E as [(_ & -> & _) | (post' & _ & ->)]; [lia|].
           apply Ha. now exists pre, post'.
Qed.

(** X10.  Through a transfer of fewer than 2^64 bytes, in whatever order
    libcurl calls the two callbacks: [received] is the number of bytes handed
    to [write_cb]; [aborted_by_threshold] is set exactly when some progress
    tick came after at least 65536 bytes; and a set latch implies that at
    least 65536 bytes were received. *)
Theorem callbacks_latch_invariant (t : Test) (idx : Z)
    (events : list curl_event) :
  Forall valid_event events ->
  bytes_of events < 2 ^ 64 ->
  received (run_callbacks events (worker_init t idx)) = bytes_of events /\
  (aborted_by_threshold (run_callbacks events (worker_init t idx)) = true <->
   exists pre post,
     events = pre ++ ev_progress :: post /\ 65536 <= bytes_of pre) /\
  (aborted_by_threshold (run_callbacks events (worker_init t idx)) = true ->
   65536 <= received (run_callbacks events (worker_init t idx))).
Proof.
  intros Hv Hb.
  destruct (run_callbacks_state t idx events Hv Hb) as (Hr & Ha & _).
  split; [exact Hr|]. split; [exact Ha|].
  intros H. apply Ha in H. destruct H as (pre & post & E & Hpre).
  rewrite Hr, E, bytes_of_app.
  subst events. apply Forall_app in Hv. destruct Hv as [_ Hv].
  apply bytes_of_nonneg in Hv. lia.
Qed.

Lemma callbacks_latch_invariant_witness :
  aborted_by_threshold
    (run_callbacks [ev_write 1 40000; ev_progress; ev_write 1 30000; ev_progress]
                   (worker_init (mkTest (str "A") [] [] 1) 0)) = true
  /\ received
       (run_callbacks [ev_write 1 40000; ev_progress; ev_write 1 30000; ev_progress]
                      (worker_init (mkTest (str "A") [] [] 1) 0)) = 70000.
Proof.
  destruct (callbacks_latch_invariant (mkTest (str "A") [] [] 1) 0
              [ev_write 1 40000; ev_progress; ev_write 1 30000; ev_progress])
    as (Hr & Ha & _).
  - repeat constructor; simpl; lia.
  - vm_compute. reflexivity.
  - split; [|exact Hr].
    apply Ha. exists [ev_write 1 40000; ev_progress; ev_write 1 30000], [].
    split; [reflexivity | vm_compute; discriminate].
Defined.

(** ** worker: from the callbacks to the diagnosis *)

Lemma outcome_of_cases (rc : Z) :
  match outcome_of rc with
  | Success => rc = CURLE_OK
  | TimedOut => rc = CURLE_OPERATION_TIMEDOUT
  | AbortedByCallback => rc = CURLE_ABORTED_BY_CALLBACK
  | OtherError =>
      rc <> CURLE_OK /\ rc <> CURLE_OPERATION_TIMEDOUT /\
      rc <> CURLE_ABORTED_BY_CALLBACK
  end.
Proof.
  unfold outcome_of.
  destruct (rc =? CURLE_OK) eqn:E1; [now apply Z.eqb_eq|].
  destruct (rc =? CURLE_OPERATION_TIMEDOUT) eqn:E2; [now apply Z.eqb_eq|].
  destruct (rc =? CURLE_ABORTED_BY_CALLBACK) eqn:E3; [now apply Z.eqb_eq|].
  apply Z.eqb_neq in E1, E2, E3. auto.
Qed.

(** X11.  For a transfer of fewer than 2^64 bytes, whatever libcurl calls and
    returns: the [Result] reports the bytes received, the response code and
    the elapsed time it was given and the provider of the [Test]; it is
    diagnosed Not detected only if at least 65536 bytes arrived, Possibly
    detected only after a successful transfer of fewer bytes, Detected
    (probable) only after a timeout without a single byte, and Failed to
    complete only for a result code other than the three the switch
    names. *)
Theorem worker_diagnosis_sound (curl_easy_strerror : Z -> cstring)
    (t : Test) (idx : Z) (events : list curl_event) (rc code : Z) (elapsed : Q) :
  Forall valid_event events ->
  bytes_of events < 2 ^ 64 ->
  let res := worker curl_easy_strerror t idx events rc code elapsed in
  received res = bytes_of events /\
  http_code res = code /\
  elapsed_ms res = elapsed /\
  r_provider res = provider t /\
  r_id res = r_id (worker_init t idx) /\
  (diagnosis_of_status (status res) = Some NotDetected ->
   65536 <= bytes_of events) /\
  (diagnosis_of_status (status res) = Some PossiblyDetected ->
   rc = CURLE_OK /\ bytes_of events < 65536) /\
  (diagnosis_of_status (status res) = Some DetectedProbable ->
   rc = CURLE_OPERATION_TIMEDOUT /\ bytes_of events = 0) /\
  (diagnosis_of_status (status res) = Some FailedToComplete ->
   rc <> CURLE_OK /\ rc <> CURLE_OPERATION_TIMEDOUT /\
   rc <> CURLE_ABORTED_BY_CALLBACK).
Proof.
  intros Hv Hb. cbv zeta.
  destruct (run_callbacks_state t idx events Hv Hb)
    as (Hr & Ha & Hid & Hp & _).
  assert (Hlatch : aborted_by_threshold (run_callbacks events (worker_init t idx))
                   = true -> 65536 <= bytes_of events).
  { intros H. apply Ha in H. destruct H as (pre & post & E & Hpre).
    subst events. rewrite bytes_of_app.
    apply Forall_app in Hv. destruct Hv as [_ Hv].
    apply bytes_of_nonneg in Hv. lia. }
  unfold worker.
  set (r0 := run_callbacks events (worker_init t idx)) in *.
  set (r1 := mkResult _ _ _ _ _ _ _ _).
  assert (F : received (worker_classify curl_easy_strerror rc r1) = received r0 /\
              http_code (worker_classify curl_easy_strerror rc r1) = code /\
              elapsed_ms (worker_classify curl_easy_strerror rc r1) = elapsed /\
              r_provider (worker_classify curl_easy_strerror rc r1) = r_provider r0 /\
              r_id (worker_classify curl_easy_strerror rc r1) = r_id r0).
  { unfold worker_classify.
    destruct (rc =? CURLE_OK);
      [destruct (OK_THRESHOLD_BYTES <=? received r1); simpl; auto|].
    destruct (rc =? CURLE_OPERATION_TIMEDOUT);
      [destruct (received r1 =? 0); simpl; auto|].
    destruct (rc =? CURLE_ABORTED_BY_CALLBACK);
      [destruct (aborted_by_threshold r1); simpl; auto|].
    simpl; auto. }
  destruct F as (F1 & F2 & F3 & F4 & F5).
  rewrite F1, F2, F3, F4, F5, Hr, Hp, Hid.
  repeat (split; [reflexivity|]).
  rewrite worker_classify_status, diagnosis_of_status_text.
  pose proof (outcome_of_cases rc) as Ho.
  change (received r1) with (received r0). rewrite Hr.
  change (aborted_by_threshold r1) with (aborted_by_threshold r0).
  change OK_THRESHOLD_BYTES with 65536.
  destruct (outcome_of rc).
  - destruct (65536 <=? bytes_of events) eqn:E;
      [apply Z.leb_le in E | apply Z.leb_gt in E];
      (split; [|split; [|split]]); intros D; try discriminate D; auto; lia.
  - destruct (bytes_of events =? 0) eqn:E;
      [apply Z.eqb_eq in E | apply Z.eqb_neq in E];
      (split; [|split; [|split]]); intros D; try discriminate D; auto; lia.
  - destruct (aborted_by_threshold r0) eqn:E;
      (split; [|split; [|split]]); intros D; try discriminate D; auto.
  - (split; [|split; [|split]]); intros D; try discriminate D; tauto.
Qed.

Lemma worker_diagnosis_sound_witness :
  received
    (worker (fun _ => str "n/a") (mkTest (str "A") (str "P") (str "u") 1) 0
            [ev_write 1 70000; ev_progress] CURLE_ABORTED_BY_CALLBACK 200 0%Q)
  = 70000.
Proof.
  destruct (worker_diagnosis_sound (fun _ => str "n/a")
              (mkTest (str "A") (str "P") (str "u") 1) 0
              [ev_write 1 70000; ev_progress] CURLE_ABORTED_BY_CALLBACK 200 0%Q)
    as (H & _).
  - repeat constructor; simpl; lia.
  - vm_compute. reflexivity.
  - exact H.
Defined.

(** ** worker: the URL requested *)

Lemma find_chr_from_In (c : ascii) (l r : cstring) (i : nat) :
  In c l -> find_chr_from c (l ++ r) i = find_chr_from c l i.
Proof.
  revert i; induction l as [|b l IH]; intros i Hin; simpl.
  - destruct Hin.
  - destruct (Ascii.eqb b c) eqn:E; [reflexivity|].
    apply IH. destruct Hin as [->|H]; [|exact H].
    now rewrite Ascii.eqb_refl in E.
Qed.

(** X12.  The URL that [worker] requests is the URL of the [Test] with the
    parameter appended at its very end, after a question mark when the URL
    has none and after an ampersand when it has one.  The URL of the [Test]
    is kept as a prefix; the first question mark of the result is the one of
    the [Test]'s URL when there is one, and otherwise the appended one; a
    hash sign of the [Test]'s URL stays the first one, at its place, so that
    the parameter of a URL with a fragment is appended to the fragment. *)
Theorem worker_url_appended_parameter (url : cstring) (h : Z) :
  (exists sep,
      worker_url url h = url ++ sep :: str "t=" ++ to_string h /\
      (In "?"%char url -> sep = "&"%char) /\
      (~ In "?"%char url -> sep = "?"%char)) /\
  firstn (length url) (worker_url url h) = url /\
  find_chr (worker_url url h) "?"%char 0
  = Some (match find_chr url "?"%char 0 with
          | Some p => p
          | None => length url
          end) /\
  (forall p,
      find_chr url "#"%char 0 = Some p ->
      find_chr (worker_url url h) "#"%char 0 = Some p /\
      (p < length url)%nat).
Proof.
  assert (Frag : forall rest p,
             find_chr url "#"%char 0 = Some p ->
             find_chr (url ++ rest) "#"%char 0 = Some p /\ (p < length url)%nat).
  { intros rest p E. unfold find_chr in *. simpl skipn in *.
    pose proof (find_chr_from_spec "#"%char url 0) as S0. rewrite E in S0.
    destruct S0 as (pre & tail & Eu & -> & _).
    split.
    - rewrite find_chr_from_In; [exact E|].
      rewrite Eu. apply in_or_app. right. now left.
    - rewrite Eu, length_app. simpl. lia. }
  unfold worker_url.
  destruct (find_chr url "?" 0) as [p|] eqn:E.
  - assert (Hin : In "?"%char url).
    { unfold find_chr in E. simpl skipn in E.
      pose proof (find_chr_from_spec "?"%char url 0) as S0. rewrite E in S0.
      destruct S0 as (pre & tail & -> & _). apply in_or_app. right. now left. }
    split; [|split; [apply firstn_app_length | split; [|apply Frag]]].
    + exists "&"%char. split; [reflexivity|]. split; [auto | contradiction].
    + unfold find_chr in *. simpl skipn in *.
      now rewrite find_chr_from_In.
  - pose proof (find_chr_none _ _ _ E) as Hn. simpl in Hn.
    split; [|split; [apply firstn_app_length | split; [|apply Frag]]].
    + exists "?"%char. split; [reflexivity|]. split; [contradiction | auto].
    + unfold find_chr. simpl skipn.
      change (str "?t=" ++ to_string h) with ("?"%char :: str "t=" ++ to_string h).
      now rewrite find_chr_from_app.
Qed.

Lemma worker_url_appended_parameter_witness :
  find_chr (worker_url (str "https://genshin.jmp.blue/characters/all#") 123)
           "#"%char 0 = Some 39%nat
  /\ worker_url (str "https://genshin.jmp.blue/characters/all#") 123
     = str "https://genshin.jmp.blue/characters/all#?t=123".
Proof.
  destruct (worker_url_appended_parameter
              (str "https://genshin.jmp.blue/characters/all#") 123)
    as (_ & _ & _ & H).
  split; [|reflexivity].
  apply (H 39%nat). reflexivity.
Defined.

(** ** log_result: the status column *)

(** X13.  The status that [log_result] prints is at most 20 bytes long; a
    status of up to 20 bytes is printed as it is, a longer one as its first
    17 bytes followed by three dots.  Of the texts that [worker] writes,
    those of Possibly detected and Failed to complete are the ones cut. *)
Theorem log_result_status_bound (res : Result) :
  (length (log_result_status res) <= 20)%nat /\
  ((length (status res) <= 20)%nat -> log_result_status res = status res) /\
  ((20 < length (status res))%nat ->
   log_result_status res = firstn 17 (status res) ++ str "...") /\
  (forall curl_easy_strerror rc,
      log_result_status (worker_classify curl_easy_strerror rc res)
      = match diagnosis_of_status
                (status (worker_classify curl_easy_strerror rc res)) with
        | Some PossiblyDetected => str "Possibly detected..."
        | Some FailedToComplete => str "Failed to complet..."
        | _ => status (worker_classify curl_easy_strerror rc res)
        end).
Proof.
  unfold log_result_status. repeat split.
  - destruct (20 <? length (status res))%nat eqn:E.
    + rewrite length_app. unfold substr. rewrite length_firstn.
      change (length (str "...")) with 3%nat. lia.
    + apply Nat.ltb_ge in E. exact E.
  - intros H. apply Nat.ltb_ge in H. now rewrite H.
  - intros H. apply Nat.ltb_lt in H. now rewrite H.
  - intros strerror rc.
    rewrite worker_classify_status, diagnosis_of_status_text.
    destruct (match outcome_of rc with
              | Success => _ | TimedOut => _ | AbortedByCallback => _
              | OtherError => _ end); reflexivity.
Qed.

Lemma log_result_status_bound_witness :
  log_result_status (mkResult [] [] 0 0 (str "Detected") [] 0%Q false)
  = str "Detected".
Proof.
  destruct (log_result_status_bound
              (mkResult [] [] 0 0 (str "Detected") [] 0%Q false)) as (_ & H & _).
  apply H. simpl. lia.
Defined.

(** ** trim *)

Lemma find_first_not_of_from_spec (set rest : cstring) (i : nat) :
  match find_first_not_of_from set rest i with
  | Some a => exists l c tail,
      rest = l ++ c :: tail /\ a = (i + length l)%nat /\
      Forall (fun x => mem_chr x set = true) l /\ mem_chr c set = false
  | None => Forall (fun x => mem_chr x set = true) rest
  end.
Proof.
  revert i; induction rest as [|c rest IH]; intros i; simpl.
  - constructor.
  - destruct (mem_chr c set) eqn:E.
    + specialize (IH (S i)).
      destruct (find_first_not_of_from set rest (S i)) as [a|].
      * destruct IH as (l & c' & tail & -> & -> & Hl & Hc).
        exists (c :: l), c', tail. simpl.
        split; [reflexivity|]. split; [lia|]. split; [now constructor | exact Hc].
      * now constructor.
    + exists [], c, rest. simpl.
      split; [reflexivity|]. split; [lia|]. split; [constructor | exact E].
Qed.

Lemma find_last_not_of_from_spec (set rest : cstring) (i : nat) :
  match find_last_not_of_from set rest i with
  | Some b => exists pre c r,
      rest = pre ++ c :: r /\ b = (i + length pre)%nat /\
      Forall (fun x => mem_chr x set = true) r /\ mem_chr c set = false
  | None => Forall (fun x => mem_chr x set = true) rest
  end.
Proof.
  revert i; induction rest as [|c rest IH]; intros i; simpl.
  - constructor.
  - specialize (IH (S i)).
    destruct (find_last_not_of_from set rest (S i)) as [b|].
    + destruct IH as (pre & c' & r & -> & -> & Hr & Hc).
      exists (c :: pre), c', r. simpl.
      split; [reflexivity|]. split; [lia|]. split; [exact Hr | exact Hc].
    + destruct (mem_chr c set) eqn:E.
      * now constructor.
      * exists [], c, rest. simpl.
        split; [reflexivity|]. split; [lia|]. split; [exact IH | exact E].
Qed.

(** What [trim] cuts out, in terms of the text. *)
Lemma trim_cases (s : cstring) :
  Z.of_nat (length s) < 2 ^ 64 ->
  (trim s = [] /\ Forall trimmed_away s) \/
  (exists l c r, s = l ++ [c] ++ r /\ trim s = [c] /\
                 Forall trimmed_away l /\ Forall trimmed_away r /\
                 mem_chr c trim_set = false) \/
  (exists l c mid c' r, s = l ++ (c :: mid ++ [c']) ++ r /\
                        trim s = c :: mid ++ [c'] /\
                        Forall trimmed_away l /\ Forall trimmed_away r /\
                        mem_chr c trim_set = false /\
                        mem_chr c' trim_set = false).
Proof.
  intros Hlen. unfold trim, find_first_not_of, find_last_not_of.
  pose proof (find_first_not_of_from_spec trim_set s 0) as Fa.
  pose proof (find_last_not_of_from_spec trim_set s 0) as Fb.
  destruct (find_first_not_of_from trim_set s 0) as [a|]; [|left; auto].
  destruct Fa as (l & c & tail & Es & -> & Hl & Hc).
  assert (NotAll : ~ Forall (fun x => mem_chr x trim_set = true) s).
  { intros H. rewrite Es in H. apply Forall_app in H. destruct H as [_ H].
    apply Forall_inv in H. congruence. }
  destruct (find_last_not_of_from trim_set s 0) as [b|]; [|contradiction].
  destruct Fb as (pre & c' & r & Es' & -> & Hr & Hc').
  right. simpl Nat.add.
  assert (Hs : skipn (length l) s = c :: tail)
    by (rewrite Es; apply skipn_app_length).
  rewrite Es in Es'. apply app_eq_app in Es'.
  destruct Es' as (m & [[E1 E2] | [E1 E2]]).
  - (* the last kept character is not after the first *)
    destruct m as [|x m].
    + rewrite app_nil_r in E1. subst pre. simpl in E2.
      injection E2 as -> ->.
      left. exists l, c, tail. subst s.
      unfold substr. rewrite Hs.
      rewrite wrap_size_id by lia.
      replace (Z.to_nat _) with 1%nat by lia.
      repeat split; auto.
    + exfalso. simpl in E2. injection E2 as <- _.
      rewrite E1 in Hl. apply Forall_app in Hl. destruct Hl as [_ Hl].
      apply Forall_inv in Hl. congruence.
  - destruct m as [|x m].
    + rewrite app_nil_r in E1. subst pre. simpl in E2.
      injection E2 as -> ->.
      left. exists l, c', r. subst s.
      unfold substr. rewrite Hs.
      rewrite wrap_size_id by lia.
      replace (Z.to_nat _) with 1%nat by lia.
      repeat split; auto.
    + simpl in E2. injection E2 as <- ->. subst pre.
      right. exists l, c, m, c', r.
      assert (Hsz : length s = (length l + S (length m + S (length r)))%nat).
      { rewrite Es, length_app. simpl. rewrite length_app. reflexivity. }
      split; [rewrite Es; simpl; now rewrite <- app_assoc|].
      split; [|auto].
      unfold substr. rewrite Hs.
      rewrite length_app. simpl length.
      rewrite wrap_size_id by lia.
      replace (Z.to_nat _) with (length (c :: m ++ [c']))
        by (simpl; rewrite !length_app; simpl; lia).
      change (c :: m ++ c' :: r) with ((c :: m) ++ [c'] ++ r).
      rewrite app_assoc. change ((c :: m) ++ [c']) with (c :: m ++ [c']).
      apply firstn_app_length.
Qed.

(** X14.  [trim] removes white space (space, tab, line feed, carriage
    return) from both ends and nothing else: the text is what was removed in
    front, then the result, then what was removed behind; a non-empty result
    neither begins nor ends with such a character; the result is empty
    exactly when the text holds nothing else; and trimming twice is trimming
    once. *)
Theorem trim_both_ends (s : cstring) :
  Z.of_nat (length s) < 2 ^ 64 ->
  (exists l r,
      s = l ++ trim s ++ r /\ Forall trimmed_away l /\ Forall trimmed_away r) /\
  (forall c rest,
      trim s = c :: rest ->
      mem_chr c trim_set = false /\ mem_chr (last rest c) trim_set = false) /\
  (trim s = [] <-> Forall trimmed_away s) /\
  trim (trim s) = trim s.
Proof.
  intros Hlen.
  assert (Fixed : forall u, Z.of_nat (length u) < 2 ^ 64 ->
                  forall c rest, u = c :: rest ->
                  mem_chr c trim_set = false ->
                  mem_chr (last rest c) trim_set = false -> trim u = u).
  { intros u Hu c rest Eu Hc Hlast.
    destruct (trim_cases u Hu)
      as [[_ Hall] | [(l & x & r & Es & Et & Hl & Hr & Hx)
                     | (l & x & mid & x' & r & Es & Et & Hl & Hr & Hx & Hx')]].
    - exfalso. rewrite Eu in Hall. apply Forall_inv in Hall.
      unfold trimmed_away in Hall. congruence.
    - assert (l = []).
      { destruct l as [|y l]; [reflexivity|]. exfalso.
        rewrite Eu in Es. injection Es as -> _.
        apply Forall_inv in Hl. unfold trimmed_away in Hl. congruence. }
      assert (r = []).
      { destruct r as [|z r0]; [reflexivity|]. exfalso.
        destruct (exists_last (l := z :: r0)) as (r' & y & Er); [discriminate|].
        rewrite Er in *. subst l. simpl in Es. rewrite Eu in Es.
        change (x :: r' ++ [y]) with ((x :: r') ++ [y]) in Es.
        assert (L : last (c :: rest) c = y) by (rewrite Es; apply last_last).
        assert (L' : last (c :: rest) c = last rest c) by (destruct rest; reflexivity).
        rewrite Forall_app in Hr. destruct Hr as [_ Hr].
        apply Forall_inv in Hr. unfold trimmed_away in Hr. congruence. }
      subst l r. rewrite Et, Es. reflexivity.
    - assert (l = []).
      { destruct l as [|y l]; [reflexivity|]. exfalso.
        rewrite Eu in Es. injection Es as -> _.
        apply Forall_inv in Hl. unfold trimmed_away in Hl. congruence. }
      assert (r = []).
      { destruct r as [|z r0]; [reflexivity|]. exfalso.
        destruct (exists_last (l := z :: r0)) as (r' & y & Er); [discriminate|].
        rewrite Er in *. subst l. simpl in Es. rewrite Eu in Es.
        assert (L : last (c :: rest) c = y).
        { rewrite Es, app_comm_cons, app_assoc. apply last_last. }
        assert (L' : last (c :: rest) c = last rest c) by (destruct rest; reflexivity).
        rewrite Forall_app in Hr. destruct Hr as [_ Hr].
        apply Forall_inv in Hr. unfold trimmed_away in Hr. congruence. }
      subst l r. rewrite Et, Es, app_nil_r. reflexivity. }
  destruct (trim_cases s Hlen)
    as [[Et Hall] | [(l & x & r & Es & Et & Hl & Hr & Hx)
                    | (l & x & mid & x' & r & Es & Et & Hl & Hr & Hx & Hx')]].
  - rewrite Et. repeat split; auto.
    + exists s, []. rewrite app_nil_r. repeat split; auto.
    + discriminate.
    + discriminate.
  - rewrite Et. split; [|split; [|split]].
    + exists l, r. auto.
    + intros c rest E. injection E as <- <-. simpl. auto.
    + split; [discriminate|]. intros Hall. exfalso.
      rewrite Es in Hall. apply Forall_app in Hall. destruct Hall as [_ Hall].
      apply Forall_inv in Hall. unfold trimmed_away in Hall. congruence.
    + apply (Fixed [x] ltac:(simpl; lia) x []); auto.
  - rewrite Et. split; [|split; [|split]].
    + exists l, r. auto.
    + intros c rest E. injection E as <- <-. rewrite last_last. auto.
    + split; [discriminate|]. intros Hall. exfalso.
      rewrite Es in Hall. apply Forall_app in Hall. destruct Hall as [_ Hall].
      apply Forall_inv in Hall. unfold trimmed_away in Hall. congruence.
    + apply (Fixed (x :: mid ++ [x'])) with (c := x) (rest := mid ++ [x']); auto.
      * rewrite Es in Hlen. rewrite !length_app in Hlen. lia.
      * now rewrite last_last.
Qed.

Lemma trim_both_ends_witness :
  trim (trim (str "  a b  ")) = trim (str "  a b  ").
Proof.
  destruct (trim_both_ends (str "  a b  ")) as (_ & _ & _ & H).
  - vm_compute. reflexivity.
  - exact H.
Defined.

Example trim_ex : trim (str "  a b  ") = str "a b".
Proof. reflexivity. Qed.

(** ** loadTestSuiteFromUrl: loading again *)

(** X15.  When the loader has returned normally, running it again on the
    same document leaves the list as the first run left it. *)
Theorem loadTestSuiteFromUrl_idempotent
    (fetchHtml : cstring -> cstring -> bool * cstring)
    (tests tests' : list Test) (url : cstring) :
  loadTestSuiteFromUrl fetchHtml tests url = Some (tests', Returned tt) ->
  loadTestSuiteFromUrl fetchHtml tests' url = Some (tests', Returned tt).
Proof.
  unfold loadTestSuiteFromUrl.
  destruct (fetchHtml url []) as [ok html].
  destruct (negb ok); [intros H; injection H as <-; reflexivity|].
  destruct (empty _); [intros H; injection H as <-; reflexivity|].
  auto.
Qed.

Lemma loadTestSuiteFromUrl_idempotent_witness :
  loadTestSuiteFromUrl
    (fun _ _ => (true, str "const TEST_SUITE = [{id:" ++ q "A" ++ str ", times: 2}];"))
    [mkTest (str "A") [] [] 2] []
  = Some ([mkTest (str "A") [] [] 2], Returned tt).
Proof.
  apply (loadTestSuiteFromUrl_idempotent _ builtin_sample).
  reflexivity.
Defined.

(** ** parseTestSuiteVector: one object after the other *)

Lemma scan_braces_flat (b rest : cstring) (j : nat) :
  ~ In "{"%char b -> ~ In "}"%char b ->
  scan_braces (b ++ "}"%char :: rest) j 1 = Some (j + length b)%nat.
Proof.
  revert j; induction b as [|c b IH]; intros j Ho Hc; simpl.
  - f_equal. lia.
  - destruct (Ascii.eqb c "{") eqn:E1.
    { apply Ascii.eqb_eq in E1. exfalso. apply Ho. now left. }
    destruct (Ascii.eqb c "}") eqn:E2.
    { apply Ascii.eqb_eq in E2. exfalso. apply Hc. now left. }
    rewrite IH by (intros H; (apply Ho + apply Hc); now right).
    f_equal. lia.
Qed.

(** One iteration of the loop on an object without inner braces. *)
Lemma parse_loop_step (fuel : nat) (pre b rest : cstring) (i : nat)
      (out : list Test) :
  (i <= length pre)%nat ->
  ~ In "{"%char (skipn i pre) ->
  ~ In "{"%char b -> ~ In "}"%char b ->
  parse_loop (S fuel) (pre ++ object_text b ++ rest) i out =
  match parseObject (object_text b) with
  | Threw e => Some (out, Threw e)
  | Returned (true, t) =>
      parse_loop fuel (pre ++ object_text b ++ rest)
                 (length pre + length b + 3) (out ++ [t])
  | Returned (false, _) =>
      parse_loop fuel (pre ++ object_text b ++ rest)
                 (length pre + length b + 3) out
  end.
Proof.
  intros Hi Hpre Ho Hc.
  set (s := pre ++ object_text b ++ rest).
  assert (Hlen : (length pre + length b + 2 <= length s)%nat).
  { unfold s, object_text. rewrite !length_app. simpl. rewrite length_app.
    simpl. lia. }
  assert (Hs : skipn (length pre) s = "{"%char :: b ++ "}"%char :: rest).
  { unfold s. rewrite skipn_app_length. unfold object_text. simpl.
    now rewrite <- app_assoc. }
  assert (Hf : find_chr s "{"%char i = Some (length pre)).
  { unfold find_chr, s. rewrite skipn_app.
    replace (i - length pre)%nat with 0%nat by lia. simpl skipn.
    unfold object_text. simpl. rewrite find_chr_from_app by exact Hpre.
    f_equal. rewrite length_skipn. lia. }
  cbn [parse_loop].
  replace (i <? length s)%nat with true by (symmetry; apply Nat.ltb_lt; lia).
  rewrite Hf, Hs. cbn [scan_braces].
  change (Ascii.eqb "{" "{") with true. cbv iota.
  change (wrap_int (0 + 1)) with 1.
  rewrite scan_braces_flat by assumption.
  unfold substr. rewrite Hs.
  replace (S (length pre) + length b - length pre + 1)%nat
    with (length (object_text b))
    by (unfold object_text; rewrite length_cons, length_app;
        change (length ["}"%char]) with 1%nat; lia).
  change ("{"%char :: b ++ "}"%char :: rest)
    with ("{"%char :: b ++ ["}"%char] ++ rest).
  rewrite app_comm_cons, app_assoc.
  change (("{"%char :: b) ++ ["}"%char]) with (object_text b).
  rewrite firstn_app_length.
  replace (S (length pre) + length b + 1 + 1)%nat
    with (length pre + length b + 3)%nat by lia.
  destruct (parseObject (object_text b)) as [[[|] t]|e]; reflexivity.
Qed.

Lemma parse_loop_past_end (fuel : nat) (s : cstring) (i : nat) (out : list Test) :
  (length s <= i)%nat ->
  parse_loop (S fuel) s i out = Some (out, Returned tt).
Proof.
  intros H. simpl.
  replace (i <? length s)%nat with false by (symmetry; apply Nat.ltb_ge; lia).
  reflexivity.
Qed.

Lemma parse_loop_at (fuel : nat) (s pre b rest : cstring) (i : nat)
      (out : list Test) :
  s = pre ++ object_text b ++ rest ->
  (0 < fuel)%nat ->
  (i <= length pre)%nat ->
  ~ In "{"%char (skipn i pre) ->
  ~ In "{"%char b -> ~ In "}"%char b ->
  parse_loop fuel s i out =
  match parseObject (object_text b) with
  | Threw e => Some (out, Threw e)
  | Returned (true, t) =>
      parse_loop (fuel - 1) s (length pre + length b + 3) (out ++ [t])
  | Returned (false, _) =>
      parse_loop (fuel - 1) s (length pre + length b + 3) out
  end.
Proof.
  intros -> Hf Hi Hpre Ho Hc.
  destruct fuel as [|fuel]; [lia|].
  rewrite parse_loop_step by assumption.
  replace (S fuel - 1)%nat with fuel by lia. reflexivity.
Qed.

Lemma parse_loop_no_more (fuel : nat) (s : cstring) (i : nat) (out : list Test) :
  (0 < fuel)%nat ->
  ~ In "{"%char (skipn i s) ->
  parse_loop fuel s i out = Some (out, Returned tt).
Proof.
  intros Hf Hn. destruct fuel as [|fuel]; [lia|]. simpl.
  destruct (i <? length s)%nat; [|reflexivity].
  now rewrite find_chr_absent.
Qed.

Lemma object_text_length (b : cstring) :
  length (object_text b) = (length b + 2)%nat.
Proof. unfold object_text. simpl. rewrite length_app. simpl. lia. Qed.

(** X16.  For objects without inner braces: a text that consists of one
    object gives what [parseObject] makes of it.  Of two objects written
    without anything between them only the first is parsed, as the scan
    resumes two characters after a closing brace.  With one character
    between them, whichever it is, both are parsed in order, unless the first
    throws. *)
Theorem parseTestSuiteVector_adjacent_objects (b1 b2 : cstring)
    (out : list Test) :
  ~ In "{"%char b1 -> ~ In "}"%char b1 ->
  ~ In "{"%char b2 -> ~ In "}"%char b2 ->
  parseTestSuiteVector (object_text b1) out = after_object b1 out /\
  parseTestSuiteVector (object_text b1 ++ object_text b2) out
  = after_object b1 out /\
  forall sep,
    parseTestSuiteVector (object_text b1 ++ sep :: object_text b2) out
    = match after_object b1 out with
      | Some (out1, Returned tt) => after_object b2 out1
      | r => r
      end.
Proof.
  intros Ho1 Hc1 Ho2 Hc2.
  assert (First : forall rest,
             parseTestSuiteVector (object_text b1 ++ rest) out =
             match parseObject (object_text b1) with
             | Threw e => Some (out, Threw e)
             | Returned (true, t) =>
                 parse_loop (length (object_text b1 ++ rest))
                            (object_text b1 ++ rest) (length b1 + 3) (out ++ [t])
             | Returned (false, _) =>
                 parse_loop (length (object_text b1 ++ rest))
                            (object_text b1 ++ rest) (length b1 + 3) out
             end).
  { intros rest. unfold parseTestSuiteVector.
    rewrite (parse_loop_at _ _ [] b1 rest 0 out eq_refl);
      [ | lia | simpl; lia | simpl; tauto | assumption | assumption ].
    replace (S (length (object_text b1 ++ rest)) - 1)%nat
      with (length (object_text b1 ++ rest)) by lia.
    reflexivity. }
  assert (Pos : forall rest, (0 < length (object_text b1 ++ rest))%nat).
  { intros rest. rewrite length_app, object_text_length. lia. }
  split; [|split].
  - rewrite <- (app_nil_r (object_text b1)) at 1.
    rewrite First. unfold after_object.
    destruct (parseObject (object_text b1)) as [[[|] t]|e]; try reflexivity;
      (apply parse_loop_no_more; [apply Pos|]);
      rewrite skipn_all2 by (rewrite app_nil_r, object_text_length; lia);
      simpl; tauto.
  - rewrite First. unfold after_object.
    assert (Hn : ~ In "{"%char
                   (skipn (length b1 + 3) (object_text b1 ++ object_text b2))).
    { assert (E0 : skipn (length b1 + 3) (object_text b1) = []).
      { apply skipn_all2. rewrite object_text_length. lia. }
      rewrite skipn_app, E0, object_text_length.
      replace (length b1 + 3 - (length b1 + 2))%nat with 1%nat by lia.
      unfold object_text. simpl. intros H. apply in_app_or in H.
      destruct H as [H|[H|[]]]; [now apply Ho2 | discriminate H]. }
    destruct (parseObject (object_text b1)) as [[[|] t]|e]; try reflexivity;
      (apply parse_loop_no_more; [apply Pos | exact Hn]).
  - intros sep. rewrite First. unfold after_object at 1.
    set (s := object_text b1 ++ sep :: object_text b2).
    assert (Es : s = (object_text b1 ++ [sep]) ++ object_text b2 ++ []).
    { unfold s. now rewrite app_nil_r, <- app_assoc. }
    assert (Hl : length (object_text b1 ++ [sep]) = (length b1 + 3)%nat).
    { rewrite length_app, object_text_length. simpl. lia. }
    assert (Hs : length s = (length b1 + length b2 + 5)%nat).
    { unfold s. rewrite length_app, length_cons, !object_text_length. lia. }
    assert (Second : forall out1,
               parse_loop (length s) s (length b1 + 3) out1 = after_object b2 out1).
    { intros out1.
      rewrite (parse_loop_at _ _ _ b2 [] (length b1 + 3) out1 Es);
        [ | lia | lia | rewrite skipn_all2 by lia; simpl; tauto
          | assumption | assumption ].
      unfold after_object. rewrite Hl.
      destruct (parseObject (object_text b2)) as [[[|] t]|e]; try reflexivity;
        (apply parse_loop_no_more; [lia|]);
        rewrite skipn_all2 by lia; simpl; tauto. }
    destruct (parseObject (object_text b1)) as [[[|] t]|e];
      [apply Second | apply Second | reflexivity].
Qed.

Lemma parseTestSuiteVector_adjacent_objects_witness :
  parseTestSuiteVector
    (object_text (str "id:" ++ q "A") ++ object_text (str "id:" ++ q "B")) []
  = Some ([mkTest (str "A") [] [] 0], Returned tt).
Proof.
  destruct (parseTestSuiteVector_adjacent_objects
              (str "id:" ++ q "A") (str "id:" ++ q "B") [])
    as (_ & H & _);
    try (intros H; vm_compute in H; intuition discriminate).
  exact H.
Defined.
